(** * The TL;DR block: summaries fetched row by row, written back in batches

    A shallow embedding of [frontend/index.js].  The block reads the URL cell
    of every record of a table, asks the SMMRY service for a summary of that
    URL, and writes the summaries back into the Summary cell, fifty records
    per call.

    The two asynchronous functions of the file, [getSummariesAsync] and
    [updateRecordsInBatchesAsync], and the click handler that composes them
    are embedded as computations in a state-and-exception monad over a
    [World]: the React state of the component plus the chronological trace
    of the calls the code makes to its collaborators ([fetch], the state
    setters, [table.updateRecordsAsync]).  The collaborators themselves are
    not part of the file; they are the two oracles [service] and [host] of
    the section below. *)

From stdpp Require Import gmap strings list pretty.
From Equations Require Import Equations.

Set Warnings "-register-all".
Set Default Proof Using "Type".

(** ** JavaScript values *)

(** What [response.json()] can deliver, and what reading a property of it
    can deliver ([VUndefined] never comes out of a JSON parser, but a
    property that is missing reads as it).  Numbers are kept as the literal
    of the body: the program never computes with one. *)
Inductive value :=
| VUndefined
| VNull
| VBool (b : bool)
| VNum (literal : string)
| VStr (s : string)
| VArr (items : list value)
| VObj (props : gmap string value).

(** [v === s] for a string literal [s]: strict equality, no coercion. *)
Definition strictEqStr (v : value) (s : string) : bool :=
  match v with
  | VStr t => String.eqb t s
  | _ => false
  end.

(** [v.k] where it does not throw.  Neither of the two names the program
    reads is a property of a boxed primitive or of an array, so on those
    the read falls through the prototype chain to [undefined]. *)
Definition prop (v : value) (k : string) : value :=
  match v with
  | VObj props => default VUndefined (props !! k)
  | _ => VUndefined
  end.

(** [undefined] and [null] have no properties: reading one throws. *)
Definition nullish (v : value) : bool :=
  match v with
  | VUndefined | VNull => true
  | _ => false
  end.

(** ** Constants of the file (lines 5-12) *)

Definition TABLE_NAME : string := "Urls".
Definition URL_FIELD_NAME : string := "URL".
Definition SUMMARY_FIELD_NAME : string := "Summary".

Definition MAX_RECORDS_PER_UPDATE : nat := 50.

Definition API_ENDPOINT : string := "https://api.smmry.com/".
Definition CORS_PROXY : string := "https://cors-anywhere.herokuapp.com/".

(** ** Records, updates, events *)

(** A record of the table as the block sees it: its id and the string
    rendering of its cells ([getCellValueAsString] renders an empty cell as
    the empty string). *)
Record TableRecord := mkRecord {
  id : string;
  cells : gmap string string
}.

Definition getCellValueAsString (record : TableRecord) (field : string) : string :=
  default "" (cells record !! field).

(** The object literal of lines 118-123, [{ id: ..., fields: { ... } }];
    its [id] is [upd_id] here, the name [id] being taken by the record's. *)
Record FieldUpdate := mkUpdate {
  upd_id : string;
  fields : gmap string value
}.

(** What [fetch] resolves with: a response whose body parses as JSON
    ([Some]) or does not ([None]). *)
Record Response := mkResponse { body : option value }.

Inductive exn :=
| NetworkError     (* fetch rejects *)
| SyntaxError      (* response.json() rejects *)
| TypeError        (* property read on null or undefined *)
| HostError.       (* table.updateRecordsAsync rejects *)

Inductive Event :=
| EvFetch (requestUrl : string)
| EvSetInvalidApi (b : bool)
| EvSetIsUpdateInProgress (b : bool)
| EvUpdateRecords (updateBatch : list FieldUpdate)
| EvUpdateSettled (resolved : bool).

Record World := mkWorld {
  trace : list Event;
  invalidApi : bool;
  isUpdateInProgress : bool
}.

Definition emit (e : Event) (w : World) : World :=
  mkWorld (trace w ++ [e]) (invalidApi w) (isUpdateInProgress w).

(** Projections of a trace onto one collaborator. *)
Definition fetches (t : list Event) : list string :=
  omap (λ e, match e with EvFetch u => Some u | _ => None end) t.

Definition flagSets (t : list Event) : list bool :=
  omap (λ e, match e with EvSetInvalidApi b => Some b | _ => None end) t.

Definition writes (t : list Event) : list (list FieldUpdate) :=
  omap (λ e, match e with EvUpdateRecords b => Some b | _ => None end) t.

(** ** The monad: state passing over [World], with exceptions *)

Inductive outcome (A : Type) :=
| Returned (a : A)
| Thrown (e : exn).
Arguments Returned {A} a.
Arguments Thrown {A} e.

Definition M (A : Type) : Type := World → outcome A * World.

Global Instance M_ret : MRet M := λ A a w, (Returned a, w).

Global Instance M_bind : MBind M := λ A B f m w,
  match m w with
  | (Returned a, w') => f a w'
  | (Thrown e, w') => (Thrown e, w')
  end.

Definition throw {A} (e : exn) : M A := λ w, (Thrown e, w).

(** [Array.prototype.slice(b, e)] for non-negative integer arguments: both
    ends are clamped to the length. *)
Definition slice {A} (l : list A) (b e : nat) : list A :=
  let k := b `min` length l in
  let final := e `min` length l in
  take (final - k) (drop k l).

Section Block.

(** The SMMRY service behind the CORS proxy: what the [n]-th [fetch] of
    the world's history resolves with when asked for [requestUrl];
    [None] is a network failure. *)
Variable service : nat → string → option Response.

(** The host: whether the [n]-th [updateRecordsAsync] call resolves. *)
Variable host : nat → list FieldUpdate → bool.

(** *** Collaborator calls *)

Definition fetch (requestUrl : string) : M Response := λ w,
  match service (length (fetches (trace w))) requestUrl with
  | Some response => (Returned response, emit (EvFetch requestUrl) w)
  | None => (Thrown NetworkError, emit (EvFetch requestUrl) w)
  end.

Definition json (response : Response) : M value :=
  match body response with
  | Some v => mret v
  | None => throw SyntaxError
  end.

Definition getProp (v : value) (k : string) : M value :=
  if nullish v then throw TypeError else mret (prop v k).

Definition setInvalidApi (b : bool) : M unit := λ w,
  (Returned (), mkWorld (trace w ++ [EvSetInvalidApi b]) b (isUpdateInProgress w)).

Definition setIsUpdateInProgress (b : bool) : M unit := λ w,
  (Returned (), mkWorld (trace w ++ [EvSetIsUpdateInProgress b]) (invalidApi w) b).

Definition updateRecordsAsync (updateBatch : list FieldUpdate) : M unit := λ w,
  let w' := emit (EvUpdateRecords updateBatch) w in
  if host (length (writes (trace w))) updateBatch
  then (Returned (), emit (EvUpdateSettled true) w')
  else (Thrown HostError, emit (EvUpdateSettled false) w').

(** *** [getSummariesAsync] (lines 101-127) *)

(** Lines 106-107.  [numOfSentences] is the text of an input box; a
    string is falsy exactly when it is empty, and the template renders
    the number 7 as the text 7. *)
Definition requestUrl (apiKey numOfSentences url : string) : string :=
  CORS_PROXY +:+ API_ENDPOINT +:+ "&SM_API_KEY=" +:+ apiKey +:+
  "&SM_LENGTH=" +:+ (if String.eqb numOfSentences "" then "7" else numOfSentences) +:+
  "&SM_URL=" +:+ url.

(** The [for ... of] loop with its local [recordUpdates]; [None] is the
    bare [return;] of line 113, which hands [undefined] to the caller. *)
Fixpoint forOf (titleField apiKey numOfSentences : string)
    (records : list TableRecord) (recordUpdates : list FieldUpdate)
    : M (option (list FieldUpdate)) :=
  match records with
  | [] => mret (Some recordUpdates)
  | record :: rest =>
      let url := getCellValueAsString record titleField in
      response ← fetch (requestUrl apiKey numOfSentences url);
      pageSummary ← json response;
      message ← getProp pageSummary "sm_api_message";
      if strictEqStr message "INVALID API KEY" then
        setInvalidApi true;;
        mret None
      else
        setInvalidApi false;;
        content ← getProp pageSummary "sm_api_content";
        forOf titleField apiKey numOfSentences rest
          (recordUpdates ++ [mkUpdate (id record) {[ SUMMARY_FIELD_NAME := content ]}])
  end.

Definition getSummariesAsync (titleField : string) (records : list TableRecord)
    (apiKey numOfSentences : string) : M (option (list FieldUpdate)) :=
  forOf titleField apiKey numOfSentences records [].

(** *** [updateRecordsInBatchesAsync] (lines 129-141) *)

(** The [while] loop of lines 133-139, from the value [i] of its index. *)
Equations? whileLoop (recordUpdates : list FieldUpdate) (i : nat) (w : World)
    : outcome unit * World by wf (length recordUpdates - i) lt :=
  whileLoop recordUpdates i w with decide (i < length recordUpdates) => {
    | right _ => (Returned (), w)
    | left _ with updateRecordsAsync
                    (slice recordUpdates i (i + MAX_RECORDS_PER_UPDATE)) w => {
      | (Returned _, w') => whileLoop recordUpdates (i + MAX_RECORDS_PER_UPDATE) w'
      | (Thrown e, w') => (Thrown e, w') } }.
Proof. unfold MAX_RECORDS_PER_UPDATE. lia. Qed.

(** An array is truthy whatever its length; [undefined] is not. *)
Definition updateRecordsInBatchesAsync (recordUpdates : option (list FieldUpdate))
    : M unit :=
  match recordUpdates with
  | Some updates => whileLoop updates 0
  | None => mret ()
  end.

(** *** [onButtonClick] (lines 39-44) *)

Definition onButtonClick (titleField : string) (records : list TableRecord)
    (apiKey numOfSentences : string) : M unit :=
  setIsUpdateInProgress true;;
  recordUpdates ← getSummariesAsync titleField records apiKey numOfSentences;
  updateRecordsInBatchesAsync recordUpdates;;
  setIsUpdateInProgress false.

(** *** The [while] loop, one test of its condition at a time *)

(** [Looping i w]: about to test [i < recordUpdates.length] in world [w];
    [Exited r w]: the loop is left, normally or by the rejection of an
    awaited call. *)
Inductive LoopState :=
| Looping (i : nat) (w : World)
| Exited (r : outcome unit) (w : World).

Definition loopStep (recordUpdates : list FieldUpdate) (s : LoopState) : LoopState :=
  match s with
  | Looping i w =>
      if decide (i < length recordUpdates) then
        match updateRecordsAsync
                (slice recordUpdates i (i + MAX_RECORDS_PER_UPDATE)) w with
        | (Returned _, w') => Looping (i + MAX_RECORDS_PER_UPDATE) w'
        | (Thrown e, w') => Exited (Thrown e) w'
        end
      else Exited (Returned ()) w
  | Exited r w => Exited r w
  end.

(** *** Vocabulary of the statements *)

(** The request of a row. *)
Definition urlOf (titleField apiKey numOfSentences : string) (record : TableRecord)
    : string :=
  requestUrl apiKey numOfSentences (getCellValueAsString record titleField).

(** What the loop makes of one answer of the service. *)
Inductive verdict :=
| Faulted (e : exn)
| Rejected
| Summarised (content : value).

Definition verdictOf (answer : option Response) : verdict :=
  match answer with
  | None => Faulted NetworkError
  | Some response =>
      match body response with
      | None => Faulted SyntaxError
      | Some pageSummary =>
          if nullish pageSummary then Faulted TypeError
          else if strictEqStr (prop pageSummary "sm_api_message") "INVALID API KEY"
          then Rejected
          else Summarised (prop pageSummary "sm_api_content")
      end
  end.

(** The parsed body row [i] of [records] is answered with, when the run
    starts after [k0] earlier fetches and gets as far as that row. *)
Definition pageSummaryAt (k0 : nat) (titleField apiKey numOfSentences : string)
    (records : list TableRecord) (i : nat) : option value :=
  record ← records !! i;
  response ← service (k0 + i) (urlOf titleField apiKey numOfSentences record);
  body response.

(** The page summaries whose [sm_api_message] a run compares with the
    sentinel, in order: the run stops at the first fault and after the
    first sentinel. *)
Fixpoint inspected (k : nat) (titleField apiKey numOfSentences : string)
    (records : list TableRecord) : list value :=
  match records with
  | [] => []
  | record :: rest =>
      match service k (urlOf titleField apiKey numOfSentences record) with
      | Some (mkResponse (Some pageSummary)) =>
          if nullish pageSummary then []
          else if strictEqStr (prop pageSummary "sm_api_message") "INVALID API KEY"
          then [pageSummary]
          else pageSummary :: inspected (S k) titleField apiKey numOfSentences rest
      | _ => []
      end
  end.

End Block.

(** The response carries the sentinel. *)
Definition carriesSentinel (pageSummary : value) : bool :=
  strictEqStr (prop pageSummary "sm_api_message") "INVALID API KEY".

(** A usable answer: a JSON body that is neither [null] nor [undefined]. *)
Definition usable (pageSummary : value) : Prop := nullish pageSummary = false.

(** [ceil (a / b)]. *)
Definition ceilDiv (a b : nat) : nat := (a + (b - 1)) / b.

(** The events of one awaited write call that resolves. *)
Definition resolvedWrite (updateBatch : list FieldUpdate) : list Event :=
  [EvUpdateRecords updateBatch; EvUpdateSettled true].

(** Two answers of the service that the loop cannot tell apart: they fail
    alike, and where both deliver a body the bodies are alike in having
    properties at all and in what [sm_api_message] and [sm_api_content]
    read as. *)
Definition sameInspected (answer1 answer2 : option Response) : Prop :=
  match answer1, answer2 with
  | None, None => True
  | Some response1, Some response2 =>
      match body response1, body response2 with
      | None, None => True
      | Some v1, Some v2 =>
          nullish v1 = nullish v2 ∧
          prop v1 "sm_api_message" = prop v2 "sm_api_message" ∧
          prop v1 "sm_api_content" = prop v2 "sm_api_content"
      | _, _ => False
      end
  | _, _ => False
  end.

(** ** Sample collaborators and inputs *)

(** A body of the expected shape with a summary, and the body the service
    answers a rejected key with. *)
Definition summaryBody (content : string) : value :=
  VObj {[ "sm_api_content" := VStr content ]}.

Definition rejectionBody : value :=
  VObj {[ "sm_api_message" := VStr "INVALID API KEY" ]}.

(** The service that answers its [k]-th request with the [k]-th of
    [bodies], and is unreachable once they are used up. *)
Definition answering (bodies : list value) : nat → string → option Response :=
  λ k _, (λ v, mkResponse (Some v)) <$> bodies !! k.

(** The host that resolves every write, and the one that rejects them. *)
Definition resolving : nat → list FieldUpdate → bool := λ _ _, true.
Definition rejecting : nat → list FieldUpdate → bool := λ _ _, false.

Definition row (rowId url : string) : TableRecord :=
  mkRecord rowId {[ URL_FIELD_NAME := url ]}.

(** The block at rest, before a click. *)
Definition idle (flag : bool) : World := mkWorld [] flag false.

(** Three rows, the second of which is answered with the rejection. *)
Definition threeRows : list TableRecord :=
  [row "r1" "a.com"; row "r2" "b.com"; row "r3" "c.com"].

Definition rejectedSecond : nat → string → option Response :=
  answering [summaryBody "S1"; rejectionBody; summaryBody "S3"].

(** [n] updates with distinct ids. *)
Definition sampleUpdates (n : nat) : list FieldUpdate :=
  (λ i, mkUpdate ("rec" +:+ pretty i) {[ SUMMARY_FIELD_NAME := VStr "S" ]}) <$> seq 0 n.

(** The block after a click that the service answered with the rejection:
    at rest again, the flag raised. *)
Definition afterRejectedClick : World :=
  (onButtonClick (answering [rejectionBody]) resolving
     URL_FIELD_NAME [row "r1" "a.com"] "bad" "" (idle false)).2.

(** ** The click as a whole, and the component around it *)

(** Two more projections of a trace. *)
Definition settlements (t : list Event) : list bool :=
  omap (λ e, match e with EvUpdateSettled ok => Some ok | _ => None end) t.

Definition progressSets (t : list Event) : list bool :=
  omap (λ e, match e with EvSetIsUpdateInProgress b => Some b | _ => None end) t.

(** The events [getSummariesAsync] can cause, and those
    [updateRecordsInBatchesAsync] can cause. *)
Definition fetcherEvent (e : Event) : Prop :=
  match e with
  | EvFetch _ | EvSetInvalidApi _ => True
  | _ => False
  end.

Definition writerEvent (e : Event) : Prop :=
  match e with
  | EvUpdateRecords _ | EvUpdateSettled _ => True
  | _ => False
  end.

(** The events of a row that is answered with a summary: its request,
    then the flag cleared. *)
Definition summarisedRow (titleField apiKey numOfSentences : string)
    (record : TableRecord) : list Event :=
  [EvFetch (urlOf titleField apiKey numOfSentences record); EvSetInvalidApi false].

(** The slice the write loop takes at its round [k]. *)
Definition batchAt (recordUpdates : list FieldUpdate) (k : nat) : list FieldUpdate :=
  slice recordUpdates (MAX_RECORDS_PER_UPDATE * k)
    (MAX_RECORDS_PER_UPDATE * k + MAX_RECORDS_PER_UPDATE).

(** The events of one awaited write call that is rejected. *)
Definition rejectedWrite (updateBatch : list FieldUpdate) : list Event :=
  [EvUpdateRecords updateBatch; EvUpdateSettled false].

(** The state of the component after some more events: only the two
    setters change it. *)
Definition applyEvent (w : World) (e : Event) : World :=
  mkWorld (trace w ++ [e])
    (match e with EvSetInvalidApi b => b | _ => invalidApi w end)
    (match e with EvSetIsUpdateInProgress b => b | _ => isUpdateInProgress w end).

Definition replay (w : World) (t : list Event) : World := foldl applyEvent w t.

(** What [table.checkPermissionsForUpdateRecord] answers (lines 35-37). *)
Record PermissionCheck := mkPermissionCheck {
  hasPermission : bool;
  reasonDisplayString : string
}.

(** What the component renders (lines 46-98), layout left aside: the
    loader, or the two inputs with their values, the label when there is
    one, the button and the reason shown under it when there is one. *)
Inductive Element :=
| Loader
| Fragment (apiKeyInput numOfSentencesInput : string) (label : option string)
    (buttonDisabled : bool) (reason : option string).

(** The component function, from its permission check and its four pieces
    of state; a string is falsy exactly when it is empty. *)
Definition TLDRBlock (permissionCheck : PermissionCheck)
    (apiKey numOfSentences : string) (w : World) : Element :=
  if isUpdateInProgress w then Loader
  else
    Fragment apiKey numOfSentences
      (if invalidApi w then Some "Invalid API Key" else None)
      (negb (hasPermission permissionCheck) || String.eqb apiKey "")
      (if negb (hasPermission permissionCheck)
       then Some (reasonDisplayString permissionCheck) else None).

(** The exception an answer of the service makes the loop throw, if any:
    [fetch] rejects, [response.json()] rejects, or the body has no
    properties to read. *)
Definition faultOf (answer : option Response) : option exn :=
  match answer with
  | None => Some NetworkError
  | Some response =>
      match body response with
      | None => Some SyntaxError
      | Some pageSummary => if nullish pageSummary then Some TypeError else None
      end
  end.

(** A service that answers one request and is unreachable afterwards. *)
Definition unreachableAfterOne : nat → string → option Response :=
  answering [summaryBody "S1"].

(** The host that resolves its first call and rejects the later ones. *)
Definition resolvingOnce : nat → list FieldUpdate → bool :=
  λ k _, if k is 0 then true else false.

(** Three answers, the second of which is an object with no field at
    all. *)
Definition contentMissingSecond : nat → string → option Response :=
  answering [summaryBody "S1"; VObj ∅; summaryBody "S3"].

(** ** Traces *)

Lemma fetches_app t1 t2 : fetches (t1 ++ t2) = fetches t1 ++ fetches t2.
Proof. apply omap_app. Qed.

Lemma flagSets_app t1 t2 : flagSets (t1 ++ t2) = flagSets t1 ++ flagSets t2.
Proof. apply omap_app. Qed.

Lemma writes_app t1 t2 : writes (t1 ++ t2) = writes t1 ++ writes t2.
Proof. apply omap_app. Qed.

(** ** The fetch loop, one row at a time *)

Lemma forOf_cons service titleField apiKey numOfSentences record rest acc w :
  forOf service titleField apiKey numOfSentences (record :: rest) acc w =
  let url := urlOf titleField apiKey numOfSentences record in
  let w1 := emit (EvFetch url) w in
  match verdictOf (service (length (fetches (trace w))) url) with
  | Faulted e => (Thrown e, w1)
  | Rejected => (Returned None, snd (setInvalidApi true w1))
  | Summarised content =>
      forOf service titleField apiKey numOfSentences rest
        (acc ++ [mkUpdate (id record) {[ SUMMARY_FIELD_NAME := content ]}])
        (snd (setInvalidApi false w1))
  end.
Proof.
  cbn [forOf]. unfold urlOf, verdictOf, mbind, M_bind, fetch.
  destruct (service _ _) as [[[pageSummary|]]|]; cbn; try reflexivity.
  unfold getProp.
  destruct (nullish pageSummary) eqn:Hnull; cbn; [reflexivity|].
  destruct (strictEqStr _ _); reflexivity.
Qed.

Lemma fetches_after_row url b w :
  length (fetches (trace (setInvalidApi b (emit (EvFetch url) w)).2)) =
  S (length (fetches (trace w))).
Proof. cbn. rewrite !fetches_app, !length_app. cbn. lia. Qed.

Lemma trace_after_row url b w :
  trace (setInvalidApi b (emit (EvFetch url) w)).2 =
  trace w ++ [EvFetch url; EvSetInvalidApi b].
Proof. cbn. by rewrite <- app_assoc. Qed.

Lemma fetches_after_progress b w :
  length (fetches (trace (setIsUpdateInProgress b w).2)) = length (fetches (trace w)).
Proof. cbn. by rewrite fetches_app, app_nil_r. Qed.

Section Answers.
Context (service : nat → string → option Response).
Context (titleField apiKey numOfSentences : string).

Lemma pageSummaryAt_0 k0 record rest :
  pageSummaryAt service k0 titleField apiKey numOfSentences (record :: rest) 0 =
  service k0 (urlOf titleField apiKey numOfSentences record) ≫= body.
Proof. unfold pageSummaryAt. cbn. by rewrite Nat.add_0_r. Qed.

Lemma pageSummaryAt_S k0 record rest i :
  pageSummaryAt service k0 titleField apiKey numOfSentences (record :: rest) (S i) =
  pageSummaryAt service (S k0) titleField apiKey numOfSentences rest i.
Proof. unfold pageSummaryAt. cbn. by rewrite Nat.add_succ_r. Qed.

(** A usable answer is either the sentinel or a summary: no fault. *)
Lemma verdictOf_usable k url pageSummary :
  service k url ≫= body = Some pageSummary →
  usable pageSummary →
  verdictOf (service k url) =
    if carriesSentinel pageSummary then Rejected
    else Summarised (prop pageSummary "sm_api_content").
Proof.
  unfold verdictOf, usable, carriesSentinel.
  destruct (service k url) as [[b]|]; cbn; [|done].
  intros -> ->. done.
Qed.

Lemma carriesSentinel_usable pageSummary :
  carriesSentinel pageSummary = true → usable pageSummary.
Proof. by destruct pageSummary. Qed.

End Answers.


(** ** Slices and batch counts *)

Lemma slice_take_drop {A} (l : list A) (i n : nat) :
  i ≤ length l → slice l i (i + n) = take n (drop i l).
Proof.
  intros Hi. unfold slice. rewrite (Nat.min_l i) by done.
  destruct (decide (i + n ≤ length l)).
  - rewrite Nat.min_l by done. f_equal. lia.
  - rewrite Nat.min_r by lia.
    rewrite !take_ge; [done | rewrite length_drop; lia ..].
Qed.

Lemma slice_all {A} (l : list A) (n : nat) :
  length l ≤ n → slice l 0 (0 + n) = l.
Proof.
  intros Hn. rewrite slice_take_drop by lia. rewrite drop_0. by apply take_ge.
Qed.

Lemma ceilDiv_0 : ceilDiv 0 MAX_RECORDS_PER_UPDATE = 0.
Proof. reflexivity. Qed.

Lemma ceilDiv_step (a : nat) :
  0 < a →
  ceilDiv a MAX_RECORDS_PER_UPDATE =
  S (ceilDiv (a - MAX_RECORDS_PER_UPDATE) MAX_RECORDS_PER_UPDATE).
Proof.
  unfold ceilDiv, MAX_RECORDS_PER_UPDATE. intros Ha. cbn [Nat.sub].
  destruct (decide (a < 50)).
  - rewrite <- (Nat.div_unique (a + 49) 50 1 (a - 1)) by lia.
    by replace (a - 50) with 0 by lia.
  - replace (a + 49) with ((a - 50 + 49) + 1 * 50) by lia.
    rewrite Nat.div_add by lia. lia.
Qed.

(** [ceilDiv a 50] is the least number of fifties that cover [a]. *)
Lemma ceilDiv_spec (a n : nat) :
  n = ceilDiv a MAX_RECORDS_PER_UPDATE ↔
  a ≤ MAX_RECORDS_PER_UPDATE * n ∧ MAX_RECORDS_PER_UPDATE * n < a + MAX_RECORDS_PER_UPDATE.
Proof.
  unfold ceilDiv, MAX_RECORDS_PER_UPDATE. cbn [Nat.sub].
  pose proof (Nat.div_mod_eq (a + 49) 50) as Hdm.
  pose proof (Nat.mod_upper_bound (a + 49) 50) as Hlt.
  split; [intros ->; lia | intros [H1 H2]].
  apply (Nat.div_unique (a + 49) 50 n (a + 49 - 50 * n)); lia.
Qed.

(** ** The write loop *)

Lemma whileLoop_step host recordUpdates i w :
  whileLoop host recordUpdates i w =
  if decide (i < length recordUpdates) then
    match updateRecordsAsync host
            (slice recordUpdates i (i + MAX_RECORDS_PER_UPDATE)) w with
    | (Returned _, w') => whileLoop host recordUpdates (i + MAX_RECORDS_PER_UPDATE) w'
    | (Thrown e, w') => (Thrown e, w')
    end
  else (Returned (), w).
Proof.
  rewrite whileLoop_equation_1.
  destruct (decide (i < length recordUpdates)); simp whileLoop; [|done].
  destruct (updateRecordsAsync _ _ _) as [[]]; by simp whileLoop.
Qed.

Lemma updateRecordsAsync_resolves host updateBatch w :
  host (length (writes (trace w))) updateBatch = true →
  updateRecordsAsync host updateBatch w =
  (Returned (),
   mkWorld (trace w ++ resolvedWrite updateBatch) (invalidApi w) (isUpdateInProgress w)).
Proof.
  unfold updateRecordsAsync, emit. intros ->. cbn. by rewrite <- app_assoc.
Qed.

Lemma updateRecordsAsync_trace host updateBatch w :
  (updateRecordsAsync host updateBatch w).2 =
  mkWorld
    (trace w ++ [EvUpdateRecords updateBatch;
                 EvUpdateSettled (host (length (writes (trace w))) updateBatch)])
    (invalidApi w) (isUpdateInProgress w).
Proof.
  unfold updateRecordsAsync, emit. destruct (host _ _); cbn; by rewrite <- app_assoc.
Qed.

(** When the host resolves every call, the loop started at index [i] writes
    the rest of the list in consecutive slices of fifty. *)
Lemma whileLoop_resolving host recordUpdates :
  (∀ k b, host k b = true) →
  ∀ d i w, length recordUpdates - i = d →
  ∃ batches,
    whileLoop host recordUpdates i w =
      (Returned (),
       mkWorld (trace w ++ flat_map resolvedWrite batches)
               (invalidApi w) (isUpdateInProgress w)) ∧
    length batches = ceilDiv (length recordUpdates - i) MAX_RECORDS_PER_UPDATE ∧
    concat batches = drop i recordUpdates ∧
    ∀ k, k < length batches →
      batches !! k =
        Some (slice recordUpdates (i + MAX_RECORDS_PER_UPDATE * k)
                (i + MAX_RECORDS_PER_UPDATE * k + MAX_RECORDS_PER_UPDATE)) ∧
      i + MAX_RECORDS_PER_UPDATE * k < length recordUpdates.
Proof.
  intros Hhost d. induction d as [d IH] using lt_wf_ind. intros i w Hd.
  rewrite whileLoop_step. destruct (decide (i < length recordUpdates)) as [Hlt|Hge].
  - rewrite updateRecordsAsync_resolves by apply Hhost.
    destruct (IH (length recordUpdates - (i + MAX_RECORDS_PER_UPDATE))
                ltac:(unfold MAX_RECORDS_PER_UPDATE; lia)
                (i + MAX_RECORDS_PER_UPDATE)
                (mkWorld (trace w ++ resolvedWrite
                            (slice recordUpdates i (i + MAX_RECORDS_PER_UPDATE)))
                         (invalidApi w) (isUpdateInProgress w))
                eq_refl) as (batches & Hrun & Hlen & Hcat & Hnth).
    exists (slice recordUpdates i (i + MAX_RECORDS_PER_UPDATE) :: batches).
    split_and!.
    + rewrite Hrun. cbn [trace invalidApi isUpdateInProgress flat_map].
      by rewrite <- app_assoc.
    + cbn [length]. rewrite Hlen, (ceilDiv_step (length recordUpdates - i)) by lia.
      do 2 f_equal. lia.
    + cbn [concat]. rewrite Hcat, slice_take_drop by lia.
      rewrite <- drop_drop. apply take_drop.
    + intros [|k] Hk.
      * rewrite Nat.mul_0_r, Nat.add_0_r. split; [done | lia].
      * cbn [length] in Hk. destruct (Hnth k ltac:(lia)) as [Heq Hin].
        change ((?x :: batches) !! S k) with (batches !! k). split.
        -- rewrite Heq. do 2 f_equal; unfold MAX_RECORDS_PER_UPDATE; lia.
        -- revert Hin. unfold MAX_RECORDS_PER_UPDATE. lia.
  - exists []. split_and!.
    + cbn. by rewrite app_nil_r; destruct w.
    + replace (length recordUpdates - i) with 0 by lia. done.
    + by rewrite drop_ge by lia.
    + cbn. lia.
Qed.

Lemma slice_subseteq {A} (l : list A) (b e : nat) : slice l b e ⊆ l.
Proof.
  unfold slice. etrans; [apply subseteq_take | apply subseteq_drop].
Qed.

(** Whatever the host answers, the loop only ever adds write calls to the
    trace, each carrying a slice of its input, and touches no state. *)
Lemma whileLoop_frame host recordUpdates i w :
  ∃ t,
    trace (whileLoop host recordUpdates i w).2 = trace w ++ t ∧
    invalidApi (whileLoop host recordUpdates i w).2 = invalidApi w ∧
    isUpdateInProgress (whileLoop host recordUpdates i w).2 = isUpdateInProgress w ∧
    fetches t = [] ∧ flagSets t = [] ∧
    Forall (λ b, b ⊆ recordUpdates) (writes t).
Proof.
  funelim (whileLoop host recordUpdates i w).
  - (* the condition fails *)
    exists []. cbn. by rewrite app_nil_r.
  - (* the call resolved: one more round *)
    pose proof (updateRecordsAsync_trace host
                  (slice recordUpdates i (i + MAX_RECORDS_PER_UPDATE)) w) as Hw.
    match goal with
    | E : updateRecordsAsync _ _ _ = _ |- _ => rewrite E in Hw
    end.
    cbn [snd] in Hw. subst w'.
    match goal with
    | IH : ∃ t, _ |- _ => destruct IH as (t & Ht & Hflag & Hprog & Hf & Hs & Hall)
    end.
    eexists (_ :: _ :: t). rewrite Ht, Hflag, Hprog.
    cbn [trace invalidApi isUpdateInProgress].
    split_and!; [by rewrite <- app_assoc | done | done | done | done |].
    cbn. constructor; [apply slice_subseteq | done].
  - (* the call was rejected: the loop is left by the exception *)
    pose proof (updateRecordsAsync_trace host
                  (slice recordUpdates i (i + MAX_RECORDS_PER_UPDATE)) w) as Hw.
    match goal with
    | E : updateRecordsAsync _ _ _ = _ |- _ => rewrite E in Hw
    end.
    cbn [snd] in Hw. subst w'.
    eexists [_; _]. cbn [snd trace invalidApi isUpdateInProgress].
    split_and!; [done ..|].
    cbn. constructor; [apply slice_subseteq | done].
Qed.

(** ** The fetch loop as a whole *)

(** What every run of the loop does, whatever the service answers: it asks
    for the rows in order, one request per row and none after the row it
    stops at, it calls the host for no write, and a list it returns holds
    the updates it started with followed by one update per row, each on
    the Summary field alone. *)
Lemma forOf_frame service titleField apiKey numOfSentences records :
  ∀ acc w,
  ∃ m t,
    m ≤ length records ∧
    trace (forOf service titleField apiKey numOfSentences records acc w).2 =
      trace w ++ t ∧
    fetches t = urlOf titleField apiKey numOfSentences <$> take m records ∧
    writes t = [] ∧
    isUpdateInProgress (forOf service titleField apiKey numOfSentences records acc w).2 =
      isUpdateInProgress w ∧
    ∀ updates,
      (forOf service titleField apiKey numOfSentences records acc w).1 =
        Returned (Some updates) →
      m = length records ∧
      ∃ news, updates = acc ++ news ∧ id <$> records = upd_id <$> news ∧
              Forall (λ u, dom (fields u) = {[ SUMMARY_FIELD_NAME ]}) news.
Proof.
  induction records as [|record rest IH]; intros acc w.
  - exists 0, []. cbn. rewrite app_nil_r. split_and!; try done.
    intros updates [= <-]. split; [done|]. exists []. by rewrite app_nil_r.
  - rewrite forOf_cons. cbn zeta.
    set (url := urlOf titleField apiKey numOfSentences record).
    destruct (verdictOf _) as [e| |content].
    + exists 1, [EvFetch url]. cbn. rewrite take_0. split_and!; try done; lia.
    + exists 1, [EvFetch url; EvSetInvalidApi true]. cbn. rewrite take_0.
      split_and!; try done; [lia | by rewrite <- app_assoc].
    + destruct (IH (acc ++ [mkUpdate (id record) {[ SUMMARY_FIELD_NAME := content ]}])
                  (setInvalidApi false (emit (EvFetch url) w)).2)
        as (m & t & Hm & Ht & Hf & Hw & Hp & Hret).
      exists (S m), (EvFetch url :: EvSetInvalidApi false :: t).
      rewrite Ht, Hp, trace_after_row. cbn [length take fmap list_fmap].
      split_and!; try done.
      * lia.
      * by rewrite <- app_assoc.
      * cbn. rewrite <- Hf. done.
      * intros updates Hupd. destruct (Hret updates Hupd) as (-> & news & -> & Hids & Hdom).
        split; [done|]. eexists (_ :: news). rewrite <- app_assoc. split; [done|].
        split; [cbn; by rewrite Hids|].
        constructor; [apply dom_singleton_L | done].
Qed.

Section Fetcher.
Context (service : nat → string → option Response).
Context (titleField apiKey numOfSentences : string).

Local Abbreviation forOf' := (forOf service titleField apiKey numOfSentences).
Local Abbreviation pageSummaryAt' := (pageSummaryAt service).
Local Abbreviation urlOf' := (urlOf titleField apiKey numOfSentences).

(** Rows that all get a usable answer without the sentinel: the loop runs
    to its end and appends the update of each row, in order. *)
Lemma forOf_summarised records :
  ∀ acc w,
  (∀ i, i < length records →
     ∃ v, pageSummaryAt' (length (fetches (trace w)))
            titleField apiKey numOfSentences records i = Some v ∧
          usable v ∧ carriesSentinel v = false) →
  ∃ news,
    (forOf' records acc w).1 = Returned (Some (acc ++ news)) ∧
    length news = length records ∧
    ∀ i record, records !! i = Some record →
      ∃ v, pageSummaryAt' (length (fetches (trace w)))
             titleField apiKey numOfSentences records i = Some v ∧
           news !! i =
             Some (mkUpdate (id record)
                     {[ SUMMARY_FIELD_NAME := prop v "sm_api_content" ]}).
Proof.
  induction records as [|record rest IH]; intros acc w Hrows.
  - exists []. cbn. rewrite app_nil_r. by split_and!.
  - destruct (Hrows 0 ltac:(cbn; lia)) as (v0 & Hv0 & Huse & Hno).
    rewrite pageSummaryAt_0 in Hv0.
    rewrite forOf_cons. cbn zeta.
    rewrite (verdictOf_usable _ _ _ _ Hv0 Huse), Hno.
    destruct (IH (acc ++ [mkUpdate (id record)
                            {[ SUMMARY_FIELD_NAME := prop v0 "sm_api_content" ]}])
                (setInvalidApi false (emit (EvFetch (urlOf' record)) w)).2)
      as (news & Hrun & Hlen & Hnth).
    { intros i Hi. rewrite fetches_after_row, <- (pageSummaryAt_S _ _ _ _ _ record).
      apply Hrows. cbn. lia. }
    eexists (_ :: news). rewrite Hrun, <- app_assoc. split_and!; [done | cbn; lia |].
    intros [|i] r Hr.
    + injection Hr as <-. exists v0. by rewrite pageSummaryAt_0.
    + destruct (Hnth i r Hr) as (v & Hv & Hu).
      rewrite fetches_after_row, <- (pageSummaryAt_S _ _ _ _ _ record) in Hv. by exists v.
Qed.

(** A sentinel at row [n], usable answers before it: the loop leaves by
    the bare [return] at the first sentinel it meets, which is at row [n]
    or earlier, with the flag raised and no request for a later row. *)
Lemma forOf_rejected records :
  ∀ n acc w pageSummary,
  (∀ i, i < n →
     ∃ v, pageSummaryAt' (length (fetches (trace w)))
            titleField apiKey numOfSentences records i = Some v ∧ usable v) →
  pageSummaryAt' (length (fetches (trace w)))
    titleField apiKey numOfSentences records n = Some pageSummary →
  carriesSentinel pageSummary = true →
  (forOf' records acc w).1 = Returned None ∧
  invalidApi (forOf' records acc w).2 = true ∧
  ∃ m t, m ≤ n ∧
    trace (forOf' records acc w).2 = trace w ++ t ∧
    fetches t = urlOf' <$> take (S m) records ∧
    length (fetches t) = S m ∧
    writes t = [].
Proof.
  induction records as [|record rest IH]; intros n acc w pageSummary Hbefore Hn Hs.
  { by destruct n. }
  rewrite forOf_cons. cbn zeta.
  assert (∃ v0, service (length (fetches (trace w))) (urlOf' record) ≫= body = Some v0
                ∧ usable v0
                ∧ (n = 0 → v0 = pageSummary)) as (v0 & Hv0 & Huse & H0).
  { destruct n as [|n].
    - rewrite pageSummaryAt_0 in Hn. exists pageSummary.
      split_and!; [done | by apply carriesSentinel_usable | done].
    - destruct (Hbefore 0 ltac:(lia)) as (v & Hv & Huse).
      rewrite pageSummaryAt_0 in Hv. exists v. split_and!; [done | done | lia]. }
  rewrite (verdictOf_usable _ _ _ _ Hv0 Huse).
  destruct (carriesSentinel v0) eqn:Hc.
  - split_and!; [done | done |].
    exists 0, [EvFetch (urlOf' record); EvSetInvalidApi true].
    split_and!; [lia | cbn; by rewrite <- app_assoc | done | done | done].
  - destruct n as [|n]; [rewrite (H0 eq_refl) in Hc; congruence|].
    rewrite pageSummaryAt_S in Hn.
    destruct (IH n (acc ++ [mkUpdate (id record)
                              {[ SUMMARY_FIELD_NAME := prop v0 "sm_api_content" ]}])
                (setInvalidApi false (emit (EvFetch (urlOf' record)) w)).2
                pageSummary)
      as (Hres & Hflag & m & t & Hm & Ht & Hf & Hlen & Hw).
    { intros i Hi. rewrite fetches_after_row, <- (pageSummaryAt_S _ _ _ _ _ record).
      apply Hbefore. lia. }
    { by rewrite fetches_after_row. }
    { done. }
    split_and!; [done | done |].
    exists (S m), ([EvFetch (urlOf' record); EvSetInvalidApi false] ++ t).
    rewrite Ht, trace_after_row, fetches_app, length_app, writes_app, Hlen, Hf, Hw.
    split_and!; [lia | by rewrite <- app_assoc | done | done | done].
Qed.

End Fetcher.

Section Flag.
Context (service : nat → string → option Response).
Context (titleField apiKey numOfSentences : string).

Local Abbreviation forOf' := (forOf service titleField apiKey numOfSentences).
Local Abbreviation inspected' k :=
  (inspected service k titleField apiKey numOfSentences).

(** The setter is called once per inspected answer, with the outcome of the
    comparison; only the last inspected answer can carry the sentinel. *)
Lemma forOf_flag records :
  ∀ acc w,
  ∃ t,
    trace (forOf' records acc w).2 = trace w ++ t ∧
    flagSets t = carriesSentinel <$> inspected' (length (fetches (trace w))) records ∧
    invalidApi (forOf' records acc w).2 = default (invalidApi w) (last (flagSets t)) ∧
    ∀ i v, inspected' (length (fetches (trace w))) records !! i = Some v →
           carriesSentinel v = true →
           S i = length (inspected' (length (fetches (trace w))) records).
Proof.
  induction records as [|record rest IH]; intros acc w.
  { exists []. cbn. rewrite app_nil_r. by split_and!. }
  rewrite forOf_cons. cbn zeta. unfold verdictOf. cbn [inspected].
  set (url := urlOf titleField apiKey numOfSentences record).
  destruct (service _ url) as [[[v|]]|]; cbn [body].
  2,3: exists [EvFetch url]; by split_and!.
  destruct (nullish v) eqn:Hnull.
  { exists [EvFetch url]. by split_and!. }
  fold (carriesSentinel v). destruct (carriesSentinel v) eqn:Hs.
  - exists [EvFetch url; EvSetInvalidApi true]. cbn. rewrite Hs.
    split_and!; [by rewrite <- app_assoc | done | done |].
    by intros [|i] v' Hv'.
  - destruct (IH (acc ++ [mkUpdate (id record)
                            {[ SUMMARY_FIELD_NAME := prop v "sm_api_content" ]}])
                (setInvalidApi false (emit (EvFetch url) w)).2)
      as (t & Ht & Hsets & Hflag & Hlast).
    rewrite fetches_after_row in Hsets, Hlast.
    exists ([EvFetch url; EvSetInvalidApi false] ++ t).
    rewrite Ht, Hflag, trace_after_row, flagSets_app, Hsets.
    split_and!.
    + by rewrite <- app_assoc.
    + cbn. by rewrite Hs.
    + change (flagSets [EvFetch url; EvSetInvalidApi false]) with [false].
      change ([false] ++ ?l) with (false :: l). rewrite last_cons.
      destruct (last (carriesSentinel <$> _)); reflexivity.
    + intros [|i] v' Hv' Hc; cbn in Hv'.
      * congruence.
      * cbn [length]. f_equal. by apply (Hlast i v').
Qed.

End Flag.

(** ** Answers the loop cannot tell apart *)

Lemma verdictOf_same answer1 answer2 :
  sameInspected answer1 answer2 → verdictOf answer1 = verdictOf answer2.
Proof.
  unfold sameInspected, verdictOf.
  destruct answer1 as [[[v1|]]|], answer2 as [[[v2|]]|]; cbn; try done.
  intros (-> & -> & ->). done.
Qed.

Lemma forOf_ext service1 service2 titleField apiKey numOfSentences records :
  (∀ k url, sameInspected (service1 k url) (service2 k url)) →
  ∀ acc w,
    forOf service1 titleField apiKey numOfSentences records acc w =
    forOf service2 titleField apiKey numOfSentences records acc w.
Proof.
  intros Hsame. induction records as [|record rest IH]; intros acc w; [done|].
  rewrite !forOf_cons. cbn zeta.
  rewrite (verdictOf_same _ _ (Hsame _ _)).
  destruct (verdictOf _); [done | done | apply IH].
Qed.

(** ** The write loop, test by test *)

(** Whatever the host answers, the machine leaves the loop, after at most
    one test per batch and the final one, in the state [whileLoop]
    computes. *)
Lemma loop_exits host recordUpdates :
  ∀ d i w, length recordUpdates - i = d →
  ∃ n, n ≤ ceilDiv (length recordUpdates - i) MAX_RECORDS_PER_UPDATE ∧
       Nat.iter (S n) (loopStep host recordUpdates) (Looping i w) =
       Exited (whileLoop host recordUpdates i w).1 (whileLoop host recordUpdates i w).2.
Proof.
  intros d. induction d as [d IH] using lt_wf_ind. intros i w Hd.
  rewrite whileLoop_step.
  destruct (decide (i < length recordUpdates)) as [Hlt|Hge] eqn:Hdec.
  - destruct (updateRecordsAsync host _ w) as [[[]|e] w'] eqn:Hupd.
    + destruct (IH (length recordUpdates - (i + MAX_RECORDS_PER_UPDATE))
                  ltac:(unfold MAX_RECORDS_PER_UPDATE; lia)
                  (i + MAX_RECORDS_PER_UPDATE) w' eq_refl) as (n & Hn & Hrun).
      exists (S n). split.
      * rewrite (ceilDiv_step (length recordUpdates - i)) by lia.
        replace (length recordUpdates - i - MAX_RECORDS_PER_UPDATE)
          with (length recordUpdates - (i + MAX_RECORDS_PER_UPDATE)) by lia.
        lia.
      * rewrite Nat.iter_succ_r. cbn [loopStep]. by rewrite Hdec, Hupd.
    + exists 0. split; [lia|]. cbn [Nat.iter nat_rect loopStep].
      by rewrite Hdec, Hupd.
  - exists 0. split; [lia|]. cbn [Nat.iter nat_rect loopStep]. by rewrite Hdec.
Qed.

(** When the host resolves every call, the index before the test number
    [k] is [50 * k], as long as there are batches left. *)
Lemma loop_indices host recordUpdates w :
  (∀ k b, host k b = true) →
  ∀ k, k ≤ ceilDiv (length recordUpdates) MAX_RECORDS_PER_UPDATE →
  ∃ wk, Nat.iter k (loopStep host recordUpdates) (Looping 0 w) =
        Looping (MAX_RECORDS_PER_UPDATE * k) wk.
Proof.
  intros Hhost k. induction k as [|k IH]; intros Hk.
  - exists w. done.
  - destruct IH as [wk Hwk]; [lia|].
    pose proof (proj1 (ceilDiv_spec (length recordUpdates) _) eq_refl) as [_ Hc].
    rewrite Nat.iter_succ, Hwk. cbn [loopStep].
    destruct (decide _) as [?|Hge]; [|revert Hge Hk Hc; unfold MAX_RECORDS_PER_UPDATE; lia].
    rewrite updateRecordsAsync_resolves by apply Hhost.
    eexists. f_equal. unfold MAX_RECORDS_PER_UPDATE. lia.
Qed.

(** ** The click handler *)

Lemma onButtonClick_unfold service host titleField records apiKey numOfSentences w :
  onButtonClick service host titleField records apiKey numOfSentences w =
  match getSummariesAsync service titleField records apiKey numOfSentences
          (setIsUpdateInProgress true w).2 with
  | (Returned recordUpdates, w1) =>
      match updateRecordsInBatchesAsync host recordUpdates w1 with
      | (Returned _, w2) => setIsUpdateInProgress false w2
      | (Thrown e, w2) => (Thrown e, w2)
      end
  | (Thrown e, w1) => (Thrown e, w1)
  end.
Proof. reflexivity. Qed.

Lemma updateRecordsInBatchesAsync_frame host recordUpdates w :
  ∃ t,
    trace (updateRecordsInBatchesAsync host recordUpdates w).2 = trace w ++ t ∧
    fetches t = [] ∧
    Forall (λ b, ∃ updates, recordUpdates = Some updates ∧ b ⊆ updates) (writes t).
Proof.
  destruct recordUpdates as [updates|]; cbn.
  - destruct (whileLoop_frame host updates 0 w) as (t & Ht & _ & _ & Hf & _ & Hall).
    exists t. split_and!; [done | done |].
    eapply Forall_impl; [exact Hall|]. intros b Hb. by exists updates.
  - exists []. by rewrite app_nil_r.
Qed.

(** ** Properties of the block *)

(** C5. Given zero rows the fetcher returns an empty update list, without
    a single call; given an empty list, or no list at all ([undefined]),
    the writer returns at once without a single call: in all three cases
    the world is left exactly as it was found. *)
Theorem empty_inputs_make_no_calls service host titleField apiKey numOfSentences w :
  getSummariesAsync service titleField [] apiKey numOfSentences w
    = (Returned (Some []), w) ∧
  updateRecordsInBatchesAsync host (Some []) w = (Returned (), w) ∧
  updateRecordsInBatchesAsync host None w = (Returned (), w).
Proof.
  split_and!; [reflexivity | | reflexivity].
  cbn [updateRecordsInBatchesAsync]. rewrite whileLoop_step.
  destruct (decide (0 < length (@nil FieldUpdate))) as [Hlt|_]; [|done].
  cbn in Hlt. lia.
Qed.

(** Reserved characters of the source value go into the request as they
    are, and an empty sentence count becomes 7. *)
Example request_keeps_reserved_characters :
  fetches (trace (getSummariesAsync (answering [summaryBody "S"]) URL_FIELD_NAME
                    [row "r1" "http://a.com/?q=x y&z=1#top"] "key" "" (idle false)).2)
  = ["https://cors-anywhere.herokuapp.com/https://api.smmry.com/&SM_API_KEY=key&SM_LENGTH=7&SM_URL=http://a.com/?q=x y&z=1#top"].
Proof. vm_compute. reflexivity. Qed.

(** C8. Every update the fetcher produces has a fields mapping with exactly
    one key, the Summary field name; and whatever the service and the host
    answer, every update of every batch a click hands to the host is on
    that one field. *)
Theorem only_the_summary_field_is_written
    service host titleField apiKey numOfSentences records w :
  (∀ updates,
     (getSummariesAsync service titleField records apiKey numOfSentences w).1
       = Returned (Some updates) →
     Forall (λ u, dom (fields u) = {[ SUMMARY_FIELD_NAME ]}) updates) ∧
  ∃ t,
    trace (onButtonClick service host titleField records apiKey numOfSentences w).2
      = trace w ++ t ∧
    Forall (Forall (λ u, dom (fields u) = {[ SUMMARY_FIELD_NAME ]})) (writes t).
Proof.
  assert (∀ w, ∀ updates,
     (getSummariesAsync service titleField records apiKey numOfSentences w).1
       = Returned (Some updates) →
     Forall (λ u, dom (fields u) = {[ SUMMARY_FIELD_NAME ]}) updates) as Hfetch.
  { intros w0 updates Hupd.
    destruct (forOf_frame service titleField apiKey numOfSentences records [] w0)
      as (m & t & _ & _ & _ & _ & _ & Hret).
    by destruct (Hret updates Hupd) as (_ & news & -> & _ & Hdom). }
  split; [apply Hfetch|].
  rewrite onButtonClick_unfold.
  pose proof (Hfetch (setIsUpdateInProgress true w).2) as Hdom.
  destruct (forOf_frame service titleField apiKey numOfSentences records []
              (setIsUpdateInProgress true w).2)
    as (m1 & t1 & _ & Ht1 & _ & Hw1 & _ & _).
  fold (getSummariesAsync service titleField records apiKey numOfSentences) in Ht1.
  destruct (getSummariesAsync _ _ _ _ _ _) as [[recordUpdates|e] w1];
    cbn [fst snd] in *.
  2: { exists ([EvSetIsUpdateInProgress true] ++ t1). rewrite Ht1.
       cbn [setIsUpdateInProgress snd trace].
       split; [by rewrite <- app_assoc|]. rewrite writes_app, Hw1. constructor. }
  destruct (updateRecordsInBatchesAsync_frame host recordUpdates w1)
    as (t2 & Ht2 & _ & Hall).
  assert (Forall (Forall (λ u, dom (fields u) = {[ SUMMARY_FIELD_NAME ]}))
            (writes t2)) as Hall2.
  { eapply Forall_impl; [exact Hall|]. intros b (updates & -> & Hsub).
    specialize (Hdom updates eq_refl). rewrite Forall_forall in Hdom |- *.
    intros u Hu. apply Hdom, Hsub, Hu. }
  destruct (updateRecordsInBatchesAsync host recordUpdates w1) as [[[]|e] w2];
    cbn [snd] in *.
  - exists ([EvSetIsUpdateInProgress true] ++ t1 ++ t2 ++ [EvSetIsUpdateInProgress false]).
    cbn [setIsUpdateInProgress snd trace]. rewrite Ht2, Ht1. cbn [snd trace setIsUpdateInProgress].
    split; [by rewrite <- !app_assoc|].
    rewrite !writes_app, Hw1. cbn. by rewrite app_nil_r.
  - exists ([EvSetIsUpdateInProgress true] ++ t1 ++ t2).
    rewrite Ht2, Ht1. cbn [snd trace setIsUpdateInProgress].
    split; [by rewrite <- !app_assoc|].
    rewrite !writes_app, Hw1. done.
Qed.

(** C3. When every row gets a usable answer that does not carry the
    sentinel, the fetcher returns exactly one update per row, in the order
    of the rows, the update of a row being
    [{ id: <the row's id>, fields: { Summary: <that answer's sm_api_content> } }]. *)
Theorem fetcher_returns_one_update_per_row
    service titleField apiKey numOfSentences records w :
  (∀ i, i < length records →
     ∃ v, pageSummaryAt service (length (fetches (trace w)))
            titleField apiKey numOfSentences records i = Some v ∧
          usable v ∧ carriesSentinel v = false) →
  ∃ updates,
    (getSummariesAsync service titleField records apiKey numOfSentences w).1
      = Returned (Some updates) ∧
    length updates = length records ∧
    ∀ i record, records !! i = Some record →
      ∃ v, pageSummaryAt service (length (fetches (trace w)))
             titleField apiKey numOfSentences records i = Some v ∧
           updates !! i =
             Some (mkUpdate (id record)
                     {[ SUMMARY_FIELD_NAME := prop v "sm_api_content" ]}).
Proof.
  intros Hrows.
  destruct (forOf_summarised service titleField apiKey numOfSentences records [] w Hrows)
    as (news & Hrun & Hlen & Hnth).
  exists news. by split_and!.
Qed.

(** The rows r1, r2 answered with S1 then S2. *)
Lemma fetcher_returns_one_update_per_row_witness :
  ∃ updates,
    (getSummariesAsync (answering [summaryBody "S1"; summaryBody "S2"])
       URL_FIELD_NAME [row "r1" "a.com"; row "r2" "b.com"] "key" "" (idle false)).1
      = Returned (Some updates) ∧
    length updates = 2 ∧
    ∀ i record, [row "r1" "a.com"; row "r2" "b.com"] !! i = Some record →
      ∃ v, pageSummaryAt (answering [summaryBody "S1"; summaryBody "S2"])
             (length (fetches (trace (idle false))))
             URL_FIELD_NAME "key" "" [row "r1" "a.com"; row "r2" "b.com"] i = Some v ∧
           updates !! i =
             Some (mkUpdate (id record)
                     {[ SUMMARY_FIELD_NAME := prop v "sm_api_content" ]}).
Proof.
  apply (fetcher_returns_one_update_per_row
           (answering [summaryBody "S1"; summaryBody "S2"])
           URL_FIELD_NAME "key" "" [row "r1" "a.com"; row "r2" "b.com"] (idle false)).
  intros [|[|i]] Hi.
  - exists (summaryBody "S1"). split_and!; reflexivity.
  - exists (summaryBody "S2"). split_and!; reflexivity.
  - simpl in Hi. lia.
Defined.

(** The two rows answered with S1 then S2, evaluated. *)
Example fetcher_on_two_rows :
  (getSummariesAsync (answering [summaryBody "S1"; summaryBody "S2"])
     URL_FIELD_NAME [row "r1" "a.com"; row "r2" "b.com"] "key" "" (idle false)).1
  = Returned (Some [mkUpdate "r1" {[ "Summary" := VStr "S1" ]};
                    mkUpdate "r2" {[ "Summary" := VStr "S2" ]}]).
Proof. vm_compute. reflexivity. Qed.

(** C1. If the answer for row [n] (counting from 0) carries the sentinel
    and the rows before it were answered, the fetcher returns no update at
    all (the bare [return]: the updates gathered for the earlier rows are
    dropped), the flag is raised, the requests stop at the first row that
    met the sentinel, which is [n] or an earlier one, and the click that
    started the run ends without one write call. *)
Theorem invalid_key_discards_every_update
    service host titleField apiKey numOfSentences records w n pageSummary :
  (∀ i, i < n →
     ∃ v, pageSummaryAt service (length (fetches (trace w)))
            titleField apiKey numOfSentences records i = Some v ∧ usable v) →
  pageSummaryAt service (length (fetches (trace w)))
    titleField apiKey numOfSentences records n = Some pageSummary →
  prop pageSummary "sm_api_message" = VStr "INVALID API KEY" →
  (getSummariesAsync service titleField records apiKey numOfSentences w).1
    = Returned None ∧
  invalidApi (getSummariesAsync service titleField records apiKey numOfSentences w).2
    = true ∧
  (∃ m t, m ≤ n ∧
     trace (getSummariesAsync service titleField records apiKey numOfSentences w).2
       = trace w ++ t ∧
     fetches t = urlOf titleField apiKey numOfSentences <$> take (S m) records) ∧
  (onButtonClick service host titleField records apiKey numOfSentences w).1
    = Returned () ∧
  ∃ t,
    trace (onButtonClick service host titleField records apiKey numOfSentences w).2
      = trace w ++ t ∧
    writes t = [] ∧
    length (fetches t) ≤ S n.
Proof.
  intros Hbefore Hn Hmsg.
  assert (carriesSentinel pageSummary = true) as Hs.
  { unfold carriesSentinel. by rewrite Hmsg. }
  rewrite onButtonClick_unfold. unfold getSummariesAsync.
  destruct (forOf_rejected service titleField apiKey numOfSentences records
              n [] w pageSummary Hbefore Hn Hs)
    as (Hres & Hflag & m & t & Hm & Ht & Hf & _).
  pose proof (forOf_rejected service titleField apiKey numOfSentences records
                n [] (setIsUpdateInProgress true w).2 pageSummary) as Hclick.
  rewrite fetches_after_progress in Hclick.
  destruct (Hclick Hbefore Hn Hs) as (Hres' & _ & m' & t' & Hm' & Ht' & _ & Hlen' & Hw').
  destruct (forOf _ _ _ _ _ _ (setIsUpdateInProgress true w).2) as [r w1].
  cbn [fst snd] in Hres', Ht'. subst r.
  split_and!; [done | done | by exists m, t | done |].
  exists ([EvSetIsUpdateInProgress true] ++ t' ++ [EvSetIsUpdateInProgress false]).
  cbn [updateRecordsInBatchesAsync mret M_ret setIsUpdateInProgress snd trace].
  rewrite Ht'. cbn [snd trace setIsUpdateInProgress].
  split_and!.
  - by rewrite <- !app_assoc.
  - by rewrite !writes_app, Hw'.
  - rewrite !fetches_app, !length_app, Hlen'. cbn. lia.
Qed.

Lemma invalid_key_discards_every_update_witness :
  pageSummaryAt rejectedSecond (length (fetches (trace (idle false))))
    URL_FIELD_NAME "key" "" threeRows 1 = Some rejectionBody ∧
  (getSummariesAsync rejectedSecond URL_FIELD_NAME threeRows "key" "" (idle false)).1
    = Returned None ∧
  invalidApi (getSummariesAsync rejectedSecond URL_FIELD_NAME threeRows "key" ""
                (idle false)).2
    = true ∧
  (∃ m t, m ≤ 1 ∧
     trace (getSummariesAsync rejectedSecond URL_FIELD_NAME threeRows "key" ""
              (idle false)).2
       = trace (idle false) ++ t ∧
     fetches t = urlOf URL_FIELD_NAME "key" "" <$> take (S m) threeRows) ∧
  (onButtonClick rejectedSecond resolving URL_FIELD_NAME threeRows "key" ""
     (idle false)).1
    = Returned () ∧
  ∃ t,
    trace (onButtonClick rejectedSecond resolving URL_FIELD_NAME threeRows "key" ""
             (idle false)).2
      = trace (idle false) ++ t ∧
    writes t = [] ∧
    length (fetches t) ≤ 2.
Proof.
  split; [reflexivity|].
  apply (invalid_key_discards_every_update rejectedSecond resolving
           URL_FIELD_NAME "key" "" threeRows (idle false) 1 rejectionBody).
  - intros [|i] Hi; [|lia]. exists (summaryBody "S1"). split; reflexivity.
  - reflexivity.
  - reflexivity.
Defined.

(** The same run, evaluated: two requests, the flag raised, nothing
    returned, nothing written. *)
Example click_with_rejected_key :
  onButtonClick rejectedSecond resolving URL_FIELD_NAME threeRows "key" "3" (idle false)
  = (Returned (),
     mkWorld
       [EvSetIsUpdateInProgress true;
        EvFetch "https://cors-anywhere.herokuapp.com/https://api.smmry.com/&SM_API_KEY=key&SM_LENGTH=3&SM_URL=a.com";
        EvSetInvalidApi false;
        EvFetch "https://cors-anywhere.herokuapp.com/https://api.smmry.com/&SM_API_KEY=key&SM_LENGTH=3&SM_URL=b.com";
        EvSetInvalidApi true;
        EvSetIsUpdateInProgress false]
       true false).
Proof. vm_compute. reflexivity. Qed.

Lemma slice_length {A} (l : list A) (b e : nat) :
  length (slice l b e) = e `min` length l - b `min` length l.
Proof. unfold slice. rewrite length_take, length_drop. lia. Qed.

(** C2. When the host resolves every call, the writer, given [L] updates,
    issues [ceil (L / 50)] write calls, each of at most 50 updates; the
    batch of call [k] is the slice of the input from [50 k] to [50 k + 50],
    so the batches in call order concatenate to the input; each call is
    settled before the next is issued (the trace is call, settlement,
    call, settlement, ...); and 120 updates go out as 50, 50, 20. *)
Theorem writer_issues_consecutive_batches host recordUpdates w :
  (∀ k b, host k b = true) →
  ∃ batches,
    updateRecordsInBatchesAsync host (Some recordUpdates) w =
      (Returned (),
       mkWorld (trace w ++ flat_map resolvedWrite batches)
               (invalidApi w) (isUpdateInProgress w)) ∧
    length batches = ceilDiv (length recordUpdates) MAX_RECORDS_PER_UPDATE ∧
    Forall (λ b, length b ≤ MAX_RECORDS_PER_UPDATE) batches ∧
    (∀ k, k < length batches →
       batches !! k =
         Some (slice recordUpdates (MAX_RECORDS_PER_UPDATE * k)
                 (MAX_RECORDS_PER_UPDATE * k + MAX_RECORDS_PER_UPDATE))) ∧
    concat batches = recordUpdates ∧
    (length recordUpdates = 120 → length <$> batches = [50; 50; 20]).
Proof.
  intros Hhost.
  destruct (whileLoop_resolving host recordUpdates Hhost _ 0 w eq_refl)
    as (batches & Hrun & Hlen & Hcat & Hnth).
  rewrite Nat.sub_0_r in Hlen. rewrite drop_0 in Hcat.
  assert (∀ k, k < length batches →
            batches !! k =
              Some (slice recordUpdates (MAX_RECORDS_PER_UPDATE * k)
                      (MAX_RECORDS_PER_UPDATE * k + MAX_RECORDS_PER_UPDATE))) as Hslices.
  { intros k Hk. by destruct (Hnth k Hk) as [-> _]. }
  exists batches. split_and!; try done.
  - apply Forall_lookup. intros k b Hb.
    rewrite (Hslices k) in Hb by (eapply lookup_lt_Some; exact Hb).
    injection Hb as <-. rewrite slice_length. lia.
  - intros H120. rewrite H120 in Hlen. vm_compute in Hlen.
    destruct batches as [|b0 [|b1 [|b2 [|b3 batches]]]]; try discriminate Hlen.
    pose proof (Hslices 0 ltac:(cbn; lia)) as [= ->].
    pose proof (Hslices 1 ltac:(cbn; lia)) as [= ->].
    pose proof (Hslices 2 ltac:(cbn; lia)) as [= ->].
    cbn [fmap list_fmap]. rewrite !slice_length, H120. reflexivity.
Qed.

Lemma writer_issues_consecutive_batches_witness :
  (∀ k b, resolving k b = true) ∧
  ∃ batches,
    updateRecordsInBatchesAsync resolving (Some (sampleUpdates 120)) (idle false) =
      (Returned (),
       mkWorld (trace (idle false) ++ flat_map resolvedWrite batches)
               (invalidApi (idle false)) (isUpdateInProgress (idle false))) ∧
    length batches = ceilDiv (length (sampleUpdates 120)) MAX_RECORDS_PER_UPDATE ∧
    Forall (λ b, length b ≤ MAX_RECORDS_PER_UPDATE) batches ∧
    (∀ k, k < length batches →
       batches !! k =
         Some (slice (sampleUpdates 120) (MAX_RECORDS_PER_UPDATE * k)
                 (MAX_RECORDS_PER_UPDATE * k + MAX_RECORDS_PER_UPDATE))) ∧
    concat batches = sampleUpdates 120 ∧
    (length (sampleUpdates 120) = 120 → length <$> batches = [50; 50; 20]).
Proof.
  split; [reflexivity|].
  apply (writer_issues_consecutive_batches resolving (sampleUpdates 120) (idle false)).
  reflexivity.
Defined.

(** 120 updates, evaluated: three calls of 50, 50 and 20 updates. *)
Example writer_on_120_updates :
  length <$> writes (trace (updateRecordsInBatchesAsync resolving
                              (Some (sampleUpdates 120)) (idle false)).2)
  = [50; 50; 20].
Proof. vm_compute. reflexivity. Qed.

(** A rejected call ends the run: the batches after it are never issued. *)
Example writer_stops_at_a_rejected_call :
  length <$> writes (trace (updateRecordsInBatchesAsync rejecting
                              (Some (sampleUpdates 120)) (idle false)).2)
  = [50].
Proof. vm_compute. reflexivity. Qed.

(** C4, as stated, fails on the empty list: its length is at most 50 and
    the writer issues no call for it, not one. *)
Lemma empty_list_goes_out_in_no_call :
  length (@nil FieldUpdate) ≤ MAX_RECORDS_PER_UPDATE ∧
  writes (trace (updateRecordsInBatchesAsync resolving (Some []) (idle false)).2) = [] ∧
  length (writes (trace (updateRecordsInBatchesAsync resolving (Some [])
                           (idle false)).2)) ≠ 1.
Proof. split_and!; [cbn; lia | reflexivity | discriminate]. Qed.

(** C4, amended. For every update list of length between 1 and 50, the
    writer issues exactly one write call, whatever the host answers, and
    that call carries the whole list, in input order. *)
Theorem short_list_goes_out_in_one_call host recordUpdates w :
  0 < length recordUpdates →
  length recordUpdates ≤ MAX_RECORDS_PER_UPDATE →
  ∃ t,
    trace (updateRecordsInBatchesAsync host (Some recordUpdates) w).2 = trace w ++ t ∧
    writes t = [recordUpdates].
Proof.
  intros Hpos Hmax. cbn [updateRecordsInBatchesAsync].
  rewrite whileLoop_step.
  destruct (decide (0 < length recordUpdates)) as [_|Hn]; [|done].
  rewrite (slice_all recordUpdates MAX_RECORDS_PER_UPDATE Hmax).
  pose proof (updateRecordsAsync_trace host recordUpdates w) as Hw.
  destruct (updateRecordsAsync host recordUpdates w) as [[[]|e] w'];
    cbn [snd] in Hw; subst w'.
  - rewrite whileLoop_step.
    destruct (decide (0 + MAX_RECORDS_PER_UPDATE < length recordUpdates)); [lia|].
    eexists. split; reflexivity.
  - eexists. split; reflexivity.
Qed.

Lemma short_list_goes_out_in_one_call_witness :
  0 < length (sampleUpdates 50) ∧
  length (sampleUpdates 50) ≤ MAX_RECORDS_PER_UPDATE ∧
  ∃ t,
    trace (updateRecordsInBatchesAsync resolving (Some (sampleUpdates 50))
             (idle false)).2
      = trace (idle false) ++ t ∧
    writes t = [sampleUpdates 50].
Proof.
  split_and!; [vm_compute; lia | vm_compute; lia |].
  apply (short_list_goes_out_in_one_call resolving (sampleUpdates 50) (idle false));
    vm_compute; lia.
Defined.

(** C7, as stated, fails on a run that inspects no answer: after a click
    that met the rejection the flag is raised; a run over zero rows from
    there ends with the flag still raised, though it inspected nothing,
    let alone an answer with the sentinel. *)
Lemma flag_outlives_a_run_that_inspects_nothing :
  invalidApi afterRejectedClick = true ∧
  invalidApi (getSummariesAsync (answering [rejectionBody]) URL_FIELD_NAME []
                "good" "" afterRejectedClick).2 = true ∧
  inspected (answering [rejectionBody]) (length (fetches (trace afterRejectedClick)))
    URL_FIELD_NAME "good" "" [] = [] ∧
  ¬ ∃ v, last (inspected (answering [rejectionBody])
                 (length (fetches (trace afterRejectedClick)))
                 URL_FIELD_NAME "good" "" []) = Some v ∧
         carriesSentinel v = true.
Proof.
  split_and!; [reflexivity | reflexivity | reflexivity |].
  intros (v & Hv & _). discriminate Hv.
Qed.

(** C7, amended. The setter is called once for each answer the run
    inspects, with [true] exactly when that answer carries the sentinel;
    an answer with the sentinel is the last one inspected (the run halts);
    so after a run that inspected at least one answer, the flag is raised
    if and only if the last inspected answer carried the sentinel. *)
Theorem flag_follows_the_last_inspected_answer
    service titleField apiKey numOfSentences records w :
  inspected service (length (fetches (trace w)))
    titleField apiKey numOfSentences records ≠ [] →
  ∃ t,
    trace (getSummariesAsync service titleField records apiKey numOfSentences w).2
      = trace w ++ t ∧
    flagSets t =
      carriesSentinel <$> inspected service (length (fetches (trace w)))
                            titleField apiKey numOfSentences records ∧
    (∀ i v, inspected service (length (fetches (trace w)))
              titleField apiKey numOfSentences records !! i = Some v →
            carriesSentinel v = true →
            S i = length (inspected service (length (fetches (trace w)))
                            titleField apiKey numOfSentences records)) ∧
    (invalidApi (getSummariesAsync service titleField records apiKey numOfSentences w).2
       = true ↔
     ∃ v, last (inspected service (length (fetches (trace w)))
                  titleField apiKey numOfSentences records) = Some v ∧
          carriesSentinel v = true).
Proof.
  intros Hsome.
  destruct (forOf_flag service titleField apiKey numOfSentences records [] w)
    as (t & Ht & Hsets & Hflag & Hhalt).
  exists t. split_and!; [done | done | done |].
  unfold getSummariesAsync. rewrite Hflag, Hsets, fmap_last.
  destruct (last (inspected _ _ _ _ _ _)) as [v|] eqn:Hlast.
  - cbn. split; [by exists v | by intros (? & [= <-] & ?)].
  - by apply last_None in Hlast.
Qed.

Lemma flag_follows_the_last_inspected_answer_witness :
  inspected rejectedSecond (length (fetches (trace (idle false))))
    URL_FIELD_NAME "key" "" threeRows = [summaryBody "S1"; rejectionBody] ∧
  ∃ t,
    trace (getSummariesAsync rejectedSecond URL_FIELD_NAME threeRows "key" ""
             (idle false)).2
      = trace (idle false) ++ t ∧
    flagSets t =
      carriesSentinel <$> inspected rejectedSecond (length (fetches (trace (idle false))))
                            URL_FIELD_NAME "key" "" threeRows ∧
    (∀ i v, inspected rejectedSecond (length (fetches (trace (idle false))))
              URL_FIELD_NAME "key" "" threeRows !! i = Some v →
            carriesSentinel v = true →
            S i = length (inspected rejectedSecond (length (fetches (trace (idle false))))
                            URL_FIELD_NAME "key" "" threeRows)) ∧
    (invalidApi (getSummariesAsync rejectedSecond URL_FIELD_NAME threeRows "key" ""
                   (idle false)).2
       = true ↔
     ∃ v, last (inspected rejectedSecond (length (fetches (trace (idle false))))
                  URL_FIELD_NAME "key" "" threeRows) = Some v ∧
          carriesSentinel v = true).
Proof.
  split; [reflexivity|].
  apply (flag_follows_the_last_inspected_answer rejectedSecond
           URL_FIELD_NAME "key" "" threeRows (idle false)).
  discriminate.
Defined.

(** A run that inspects no answer leaves the flag as it found it. *)
Lemma flag_kept_when_nothing_is_inspected
    service titleField apiKey numOfSentences records w :
  inspected service (length (fetches (trace w)))
    titleField apiKey numOfSentences records = [] →
  invalidApi (getSummariesAsync service titleField records apiKey numOfSentences w).2
  = invalidApi w.
Proof.
  intros Hnone.
  destruct (forOf_flag service titleField apiKey numOfSentences records [] w)
    as (t & _ & Hsets & Hflag & _).
  unfold getSummariesAsync. by rewrite Hflag, Hsets, Hnone.
Qed.

(** An empty object for an answer, evaluated: the row is updated, with
    [undefined]. *)
Example fetcher_on_an_empty_object :
  (getSummariesAsync (answering [VObj ∅]) URL_FIELD_NAME [row "r1" "a.com"]
     "key" "" (idle true))
  = (Returned (Some [mkUpdate "r1" {[ "Summary" := VUndefined ]}]),
     mkWorld
       [EvFetch "https://cors-anywhere.herokuapp.com/https://api.smmry.com/&SM_API_KEY=key&SM_LENGTH=7&SM_URL=a.com";
        EvSetInvalidApi false]
       false false).
Proof. vm_compute. reflexivity. Qed.

(** A body that is [null] is another matter: reading [sm_api_message] of
    it throws. *)
Example fetcher_on_null :
  (getSummariesAsync (answering [VNull]) URL_FIELD_NAME [row "r1" "a.com"]
     "key" "" (idle false)).1
  = Thrown TypeError.
Proof. reflexivity. Qed.

(** C10. The writer terminates on every list: whatever the host answers,
    the loop is left after at most [ceil (L / 50)] tests of its condition
    beyond the first, in the very state the writer returns.  Its index
    starts at 0 and grows by 50 at each round: when the host resolves
    every call, the index is [50 k] at the test number [k], that test
    succeeds exactly when [k < ceil (L / 50)], and so the body runs
    [ceil (L / 50)] times before the loop is left normally. *)
Theorem writer_loop_terminates host recordUpdates w :
  (∃ n, n ≤ ceilDiv (length recordUpdates) MAX_RECORDS_PER_UPDATE ∧
        Nat.iter (S n) (loopStep host recordUpdates) (Looping 0 w) =
        Exited (updateRecordsInBatchesAsync host (Some recordUpdates) w).1
               (updateRecordsInBatchesAsync host (Some recordUpdates) w).2) ∧
  ((∀ k b, host k b = true) →
   (∀ k, k ≤ ceilDiv (length recordUpdates) MAX_RECORDS_PER_UPDATE →
      (∃ wk, Nat.iter k (loopStep host recordUpdates) (Looping 0 w) =
             Looping (MAX_RECORDS_PER_UPDATE * k) wk) ∧
      (MAX_RECORDS_PER_UPDATE * k < length recordUpdates ↔
       k < ceilDiv (length recordUpdates) MAX_RECORDS_PER_UPDATE)) ∧
   ∃ w', Nat.iter (S (ceilDiv (length recordUpdates) MAX_RECORDS_PER_UPDATE))
           (loopStep host recordUpdates) (Looping 0 w) =
         Exited (Returned ()) w').
Proof.
  pose proof (proj1 (ceilDiv_spec (length recordUpdates) _) eq_refl) as [Hc1 Hc2].
  split.
  - destruct (loop_exits host recordUpdates _ 0 w eq_refl) as (n & Hn & Hrun).
    rewrite Nat.sub_0_r in Hn. by exists n.
  - intros Hhost. split.
    + intros k Hk. split; [by apply loop_indices|].
      revert Hc1 Hc2 Hk. unfold MAX_RECORDS_PER_UPDATE. lia.
    + destruct (loop_indices host recordUpdates w Hhost _ (Nat.le_refl _))
        as [wc Hwc].
      exists wc. rewrite Nat.iter_succ, Hwc. cbn [loopStep].
      destruct (decide _) as [Hlt|_]; [|done].
      revert Hlt Hc1. unfold MAX_RECORDS_PER_UPDATE. lia.
Qed.

Lemma writer_loop_terminates_witness :
  (∀ k b, resolving k b = true) ∧
  (∃ n, n ≤ ceilDiv (length (sampleUpdates 120)) MAX_RECORDS_PER_UPDATE ∧
        Nat.iter (S n) (loopStep resolving (sampleUpdates 120)) (Looping 0 (idle false)) =
        Exited (updateRecordsInBatchesAsync resolving (Some (sampleUpdates 120))
                  (idle false)).1
               (updateRecordsInBatchesAsync resolving (Some (sampleUpdates 120))
                  (idle false)).2) ∧
  (∀ k, k ≤ ceilDiv (length (sampleUpdates 120)) MAX_RECORDS_PER_UPDATE →
     (∃ wk, Nat.iter k (loopStep resolving (sampleUpdates 120)) (Looping 0 (idle false)) =
            Looping (MAX_RECORDS_PER_UPDATE * k) wk) ∧
     (MAX_RECORDS_PER_UPDATE * k < length (sampleUpdates 120) ↔
      k < ceilDiv (length (sampleUpdates 120)) MAX_RECORDS_PER_UPDATE)) ∧
  ∃ w', Nat.iter (S (ceilDiv (length (sampleUpdates 120)) MAX_RECORDS_PER_UPDATE))
          (loopStep resolving (sampleUpdates 120)) (Looping 0 (idle false)) =
        Exited (Returned ()) w'.
Proof.
  split; [reflexivity|].
  destruct (writer_loop_terminates resolving (sampleUpdates 120) (idle false))
    as [Hexit Hcount].
  split; [exact Hexit|]. apply Hcount. reflexivity.
Defined.

(** 120 updates: the loop is still running at the third test of its
    condition, at index 150 at the fourth, and left by it. *)
Example writer_loop_on_120_updates :
  ceilDiv 120 MAX_RECORDS_PER_UPDATE = 3 ∧
  (∃ w3, Nat.iter 3 (loopStep resolving (sampleUpdates 120)) (Looping 0 (idle false))
         = Looping 150 w3) ∧
  ∃ w4, Nat.iter 4 (loopStep resolving (sampleUpdates 120)) (Looping 0 (idle false))
        = Exited (Returned ()) w4.
Proof. split_and!; [reflexivity | eexists; vm_compute; reflexivity ..]. Qed.

(** ** Beyond the two loops: runs in full *)

Lemma settlements_app t1 t2 : settlements (t1 ++ t2) = settlements t1 ++ settlements t2.
Proof. apply omap_app. Qed.

Lemma progressSets_app t1 t2 :
  progressSets (t1 ++ t2) = progressSets t1 ++ progressSets t2.
Proof. apply omap_app. Qed.

Section Rows.
Context (service : nat → string → option Response).
Context (titleField apiKey numOfSentences : string).

Local Abbreviation forOf' := (forOf service titleField apiKey numOfSentences).
Local Abbreviation urlOf' := (urlOf titleField apiKey numOfSentences).
Local Abbreviation summarisedRow' := (summarisedRow titleField apiKey numOfSentences).

Lemma fetches_summarised records :
  fetches (flat_map summarisedRow' records) = urlOf' <$> records.
Proof. induction records as [|r rest IH]; [done|]. cbn. by rewrite <- IH. Qed.

Lemma flagSets_summarised records :
  flagSets (flat_map summarisedRow' records) = replicate (length records) false.
Proof. induction records as [|r rest IH]; [done|]. cbn. by rewrite <- IH. Qed.

Lemma writes_summarised records : writes (flat_map summarisedRow' records) = [].
Proof. induction records as [|r rest IH]; [done|]. cbn. by rewrite <- IH. Qed.

Lemma fetcherEvent_summarised records :
  Forall fetcherEvent (flat_map summarisedRow' records).
Proof. induction records as [|r rest IH]; cbn; [done|]. by repeat constructor. Qed.

(** The first [n] rows answered with summaries: the loop gets through
    them, one request and one clearing of the flag per row, and goes on
    with the rows that are left and [n] more updates. *)
Lemma forOf_prefix records :
  ∀ n acc w,
  n ≤ length records →
  (∀ i, i < n →
     ∃ v, pageSummaryAt service (length (fetches (trace w)))
            titleField apiKey numOfSentences records i = Some v ∧
          usable v ∧ carriesSentinel v = false) →
  ∃ news,
    length news = n ∧
    (∀ i record, i < n → records !! i = Some record →
       ∃ v, pageSummaryAt service (length (fetches (trace w)))
              titleField apiKey numOfSentences records i = Some v ∧
            news !! i =
              Some (mkUpdate (id record)
                      {[ SUMMARY_FIELD_NAME := prop v "sm_api_content" ]})) ∧
    forOf' records acc w =
      forOf' (drop n records) (acc ++ news)
        (mkWorld (trace w ++ flat_map summarisedRow' (take n records))
           (if n is 0 then invalidApi w else false)
           (isUpdateInProgress w)).
Proof.
  induction records as [|record rest IH]; intros [|n] acc w Hn Hrows;
    cbn [length] in Hn; try lia.
  1,2: exists []; cbn; rewrite !app_nil_r; destruct w; split_and!; [done | lia | done].
  destruct (Hrows 0 ltac:(lia)) as (v0 & Hv0 & Huse & Hno).
  rewrite pageSummaryAt_0 in Hv0.
  rewrite forOf_cons. cbn zeta.
  rewrite (verdictOf_usable _ _ _ _ Hv0 Huse), Hno.
  destruct (IH n (acc ++ [mkUpdate (id record)
                            {[ SUMMARY_FIELD_NAME := prop v0 "sm_api_content" ]}])
              (setInvalidApi false (emit (EvFetch (urlOf' record)) w)).2)
    as (news & Hlen & Hnth & Hrun).
  { lia. }
  { intros i Hi. rewrite fetches_after_row, <- (pageSummaryAt_S _ _ _ _ _ record).
    apply Hrows. lia. }
  eexists (_ :: news). split_and!.
  - cbn. by rewrite Hlen.
  - intros [|i] r Hi Hr.
    + injection Hr as <-. exists v0. by rewrite pageSummaryAt_0.
    + destruct (Hnth i r ltac:(lia) Hr) as (v & Hv & Hu).
      rewrite fetches_after_row, <- (pageSummaryAt_S _ _ _ _ _ record) in Hv.
      by exists v.
  - rewrite Hrun, trace_after_row, <- !app_assoc. cbn [drop take flat_map].
    do 2 f_equal. by destruct n.
Qed.

Lemma fetches_after_prefix w records :
  length (fetches (trace w ++ flat_map summarisedRow' records)) =
  length (fetches (trace w)) + length records.
Proof. by rewrite fetches_app, length_app, fetches_summarised, length_fmap. Qed.

End Rows.

Lemma verdictOf_fault answer e : faultOf answer = Some e → verdictOf answer = Faulted e.
Proof.
  unfold faultOf, verdictOf. destruct answer as [[[v|]]|]; cbn; try congruence.
  destruct (nullish v); congruence.
Qed.

Lemma pageSummaryAt_lookup service k0 titleField apiKey numOfSentences records i record :
  records !! i = Some record →
  pageSummaryAt service k0 titleField apiKey numOfSentences records i =
  service (k0 + i) (urlOf titleField apiKey numOfSentences record) ≫= body.
Proof. unfold pageSummaryAt. by intros ->. Qed.

(** The loop at the first row that is not answered with a summary, after
    [n] rows that were. *)
Lemma forOf_stops service titleField apiKey numOfSentences records n record acc w :
  records !! n = Some record →
  (∀ i, i < n →
     ∃ v, pageSummaryAt service (length (fetches (trace w)))
            titleField apiKey numOfSentences records i = Some v ∧
          usable v ∧ carriesSentinel v = false) →
  ∃ news,
    length news = n ∧
    forOf service titleField apiKey numOfSentences records acc w =
    match verdictOf (service (length (fetches (trace w)) + n)
                       (urlOf titleField apiKey numOfSentences record)) with
    | Faulted e =>
        (Thrown e,
         mkWorld (trace w ++
                  flat_map (summarisedRow titleField apiKey numOfSentences)
                    (take n records) ++
                  [EvFetch (urlOf titleField apiKey numOfSentences record)])
           (if n is 0 then invalidApi w else false) (isUpdateInProgress w))
    | Rejected =>
        (Returned None,
         mkWorld (trace w ++
                  flat_map (summarisedRow titleField apiKey numOfSentences)
                    (take n records) ++
                  [EvFetch (urlOf titleField apiKey numOfSentences record);
                   EvSetInvalidApi true])
           true (isUpdateInProgress w))
    | Summarised content =>
        forOf service titleField apiKey numOfSentences (drop (S n) records)
          ((acc ++ news) ++
           [mkUpdate (id record) {[ SUMMARY_FIELD_NAME := content ]}])
          (mkWorld (trace w ++
                    flat_map (summarisedRow titleField apiKey numOfSentences)
                      (take (S n) records))
             false (isUpdateInProgress w))
    end.
Proof.
  intros Hrecord Hrows.
  destruct (forOf_prefix service titleField apiKey numOfSentences records n acc w)
    as (news & Hlen & _ & Hrun); [by eapply Nat.lt_le_incl, lookup_lt_Some | done |].
  exists news. split; [done|].
  rewrite Hrun, (drop_S _ _ _ Hrecord), forOf_cons. cbn zeta.
  cbn [trace]. rewrite fetches_after_prefix, length_take_le
    by (by eapply Nat.lt_le_incl, lookup_lt_Some).
  destruct (verdictOf _) as [e| |content].
  - unfold emit. cbn. by rewrite <- app_assoc.
  - unfold emit. cbn. by rewrite <- !app_assoc.
  - f_equal. unfold emit. cbn. f_equal.
    rewrite (take_S_r _ _ _ Hrecord), flat_map_app, <- !app_assoc. done.
Qed.

Lemma writes_resolvedWrite updateBatch : writes (resolvedWrite updateBatch) = [updateBatch].
Proof. reflexivity. Qed.

Lemma updateRecordsAsync_rejects host updateBatch w :
  host (length (writes (trace w))) updateBatch = false →
  updateRecordsAsync host updateBatch w =
  (Thrown HostError,
   mkWorld (trace w ++ rejectedWrite updateBatch) (invalidApi w) (isUpdateInProgress w)).
Proof.
  unfold updateRecordsAsync, emit. intros ->. cbn. by rewrite <- app_assoc.
Qed.

(** The write loop under any host, from its round [j]: it gets through
    the calls the host resolves and stops at the first one it rejects. *)
Lemma whileLoop_any host recordUpdates :
  ∀ d j w, length recordUpdates - MAX_RECORDS_PER_UPDATE * j = d →
  ∃ m,
    (∀ k, k < m →
       host (length (writes (trace w)) + k) (batchAt recordUpdates (j + k)) = true) ∧
    ((m = ceilDiv (length recordUpdates - MAX_RECORDS_PER_UPDATE * j)
            MAX_RECORDS_PER_UPDATE ∧
      whileLoop host recordUpdates (MAX_RECORDS_PER_UPDATE * j) w =
        (Returned (),
         mkWorld (trace w ++ flat_map resolvedWrite (batchAt recordUpdates <$> seq j m))
           (invalidApi w) (isUpdateInProgress w))) ∨
     (m < ceilDiv (length recordUpdates - MAX_RECORDS_PER_UPDATE * j)
            MAX_RECORDS_PER_UPDATE ∧
      host (length (writes (trace w)) + m) (batchAt recordUpdates (j + m)) = false ∧
      whileLoop host recordUpdates (MAX_RECORDS_PER_UPDATE * j) w =
        (Thrown HostError,
         mkWorld (trace w ++ flat_map resolvedWrite (batchAt recordUpdates <$> seq j m)
                    ++ rejectedWrite (batchAt recordUpdates (j + m)))
           (invalidApi w) (isUpdateInProgress w)))).
Proof.
  intros d. induction d as [d IH] using lt_wf_ind. intros j w Hd.
  rewrite whileLoop_step.
  destruct (decide (MAX_RECORDS_PER_UPDATE * j < length recordUpdates)) as [Hlt|Hge].
  - fold (batchAt recordUpdates j).
    destruct (host (length (writes (trace w))) (batchAt recordUpdates j)) eqn:Hhost.
    + rewrite updateRecordsAsync_resolves by done.
      replace (MAX_RECORDS_PER_UPDATE * j + MAX_RECORDS_PER_UPDATE)
        with (MAX_RECORDS_PER_UPDATE * S j) by lia.
      destruct (IH (length recordUpdates - MAX_RECORDS_PER_UPDATE * S j)
                  ltac:(unfold MAX_RECORDS_PER_UPDATE in *; lia) (S j)
                  (mkWorld (trace w ++ resolvedWrite (batchAt recordUpdates j))
                     (invalidApi w) (isUpdateInProgress w)) eq_refl)
        as (m & Hres & Hend).
      cbn [trace invalidApi isUpdateInProgress] in Hres, Hend.
      rewrite writes_app, writes_resolvedWrite, length_app in Hres, Hend.
      cbn [length] in Hres, Hend.
      assert (ceilDiv (length recordUpdates - MAX_RECORDS_PER_UPDATE * j)
                MAX_RECORDS_PER_UPDATE =
              S (ceilDiv (length recordUpdates - MAX_RECORDS_PER_UPDATE * S j)
                   MAX_RECORDS_PER_UPDATE)) as Hceil.
      { rewrite ceilDiv_step by lia. do 2 f_equal. lia. }
      exists (S m). split.
      { intros [|k] Hk.
        - by rewrite !Nat.add_0_r.
        - rewrite <- (Hres k) by lia. f_equal; [lia | f_equal; lia]. }
      rewrite Hceil. cbn [seq fmap list_fmap flat_map].
      destruct Hend as [[-> Hrun]|(Hm & Hrej & Hrun)]; [left | right].
      * split; [done|]. by rewrite Hrun, <- app_assoc.
      * split_and!; [lia | |].
        -- replace (length (writes (trace w)) + S m)
             with (length (writes (trace w)) + 1 + m) by lia.
           by replace (j + S m) with (S j + m) by lia.
        -- rewrite Hrun, <- !app_assoc.
           by replace (S j + m) with (j + S m) by lia.
    + exists 0. split; [intros k Hk; lia|]. right. split_and!.
      * rewrite ceilDiv_step by lia. lia.
      * by rewrite !Nat.add_0_r.
      * rewrite updateRecordsAsync_rejects by done. by rewrite Nat.add_0_r.
  - exists 0. split; [intros k Hk; lia|]. left.
    replace (length recordUpdates - MAX_RECORDS_PER_UPDATE * j) with 0 by lia.
    split; [done|]. cbn. rewrite app_nil_r. by destruct w.
Qed.

(** ** What each stage can cause *)

Lemma fetcherEvent_projections t :
  Forall fetcherEvent t → writes t = [] ∧ settlements t = [] ∧ progressSets t = [].
Proof.
  induction 1 as [|e t He _ (IH1 & IH2 & IH3)]; [done|].
  by destruct e.
Qed.

Lemma writerEvent_projections t :
  Forall writerEvent t → fetches t = [] ∧ flagSets t = [] ∧ progressSets t = [].
Proof.
  induction 1 as [|e t He _ (IH1 & IH2 & IH3)]; [done|].
  by destruct e.
Qed.

Lemma writerEvent_resolved batches : Forall writerEvent (flat_map resolvedWrite batches).
Proof. induction batches; cbn; [done|]. by repeat constructor. Qed.

(** The world the fetch loop leaves, whatever the service answers. *)
Lemma forOf_world service titleField apiKey numOfSentences records :
  ∀ acc w,
  ∃ t,
    Forall fetcherEvent t ∧
    (forOf service titleField apiKey numOfSentences records acc w).2 =
      mkWorld (trace w ++ t) (default (invalidApi w) (last (flagSets t)))
        (isUpdateInProgress w).
Proof.
  induction records as [|record rest IH]; intros acc w.
  { exists []. cbn. rewrite app_nil_r. by destruct w. }
  rewrite forOf_cons. cbn zeta.
  set (url := urlOf titleField apiKey numOfSentences record).
  destruct (verdictOf _) as [e| |content].
  - exists [EvFetch url]. split; [by repeat constructor | done].
  - exists [EvFetch url; EvSetInvalidApi true]. split; [by repeat constructor|].
    cbn. by rewrite <- app_assoc.
  - destruct (IH (acc ++ [mkUpdate (id record) {[ SUMMARY_FIELD_NAME := content ]}])
                (setInvalidApi false (emit (EvFetch url) w)).2) as (t & Hev & Hw).
    exists ([EvFetch url; EvSetInvalidApi false] ++ t). split.
    + apply Forall_app. split; [by repeat constructor | done].
    + rewrite Hw, trace_after_row, <- app_assoc, flagSets_app.
      change (flagSets [EvFetch url; EvSetInvalidApi false]) with [false].
      change ([false] ++ ?l) with (false :: l). rewrite last_cons.
      f_equal. by destruct (last (flagSets t)).
Qed.

(** The world the writer leaves, whatever the host answers. *)
Lemma updateRecordsInBatchesAsync_world host recordUpdates w :
  ∃ t,
    Forall writerEvent t ∧
    (updateRecordsInBatchesAsync host recordUpdates w).2 =
      mkWorld (trace w ++ t) (invalidApi w) (isUpdateInProgress w).
Proof.
  destruct recordUpdates as [updates|]; cbn [updateRecordsInBatchesAsync].
  - pose proof (whileLoop_any host updates _ 0 w eq_refl) as (m & _ & Hend).
    rewrite Nat.mul_0_r in Hend.
    destruct Hend as [[_ ->]|(_ & _ & ->)]; eexists; (split; [|reflexivity]).
    + apply writerEvent_resolved.
    + apply Forall_app. split; [apply writerEvent_resolved | by repeat constructor].
  - exists []. cbn. rewrite app_nil_r. by destruct w.
Qed.

(** The click: progress on, the fetch loop, the write loop, and progress
    off if nothing was thrown on the way. *)
Lemma click_shape service host titleField apiKey numOfSentences records w :
  ∃ tF tW,
    Forall fetcherEvent tF ∧ Forall writerEvent tW ∧
    (getSummariesAsync service titleField records apiKey numOfSentences
       (setIsUpdateInProgress true w).2).2 =
      mkWorld (trace w ++ [EvSetIsUpdateInProgress true] ++ tF)
        (default (invalidApi w) (last (flagSets tF))) true ∧
    (onButtonClick service host titleField records apiKey numOfSentences w =
       (Returned (),
        mkWorld (trace w ++ [EvSetIsUpdateInProgress true] ++ tF ++ tW ++
                 [EvSetIsUpdateInProgress false])
          (default (invalidApi w) (last (flagSets tF))) false) ∨
     ∃ e,
       onButtonClick service host titleField records apiKey numOfSentences w =
       (Thrown e,
        mkWorld (trace w ++ [EvSetIsUpdateInProgress true] ++ tF ++ tW)
          (default (invalidApi w) (last (flagSets tF))) true)).
Proof.
  rewrite onButtonClick_unfold. unfold getSummariesAsync.
  destruct (forOf_world service titleField apiKey numOfSentences records []
              (setIsUpdateInProgress true w).2) as (tF & HF & HwF).
  cbn [setIsUpdateInProgress snd trace invalidApi isUpdateInProgress] in HwF.
  rewrite <- app_assoc in HwF.
  destruct (forOf _ _ _ _ _ _ _) as [[recordUpdates|e] w1]; cbn [snd] in HwF; subst w1.
  - destruct (updateRecordsInBatchesAsync_world host recordUpdates
                (mkWorld (trace w ++ [EvSetIsUpdateInProgress true] ++ tF)
                   (default (invalidApi w) (last (flagSets tF))) true))
      as (tW & HW & HwW).
    exists tF, tW. split_and!; [done | done | done |].
    destruct (updateRecordsInBatchesAsync _ _ _) as [[[]|e] w2]; cbn [snd] in HwW; subst w2.
    + left. unfold setIsUpdateInProgress. cbn. by rewrite <- !app_assoc.
    + right. exists e. cbn. by rewrite <- !app_assoc.
  - exists tF, []. split_and!; [done | done | done |].
    right. exists e. by rewrite app_nil_r.
Qed.

(** ** More properties of the block *)

(** X1. A click switches progress on, runs the whole fetch loop and only
    then the write loop: whatever the service and the host answer, its
    events are the progress update, then requests and flag updates only,
    then write calls and their settlements only, then at most the closing
    progress update.  No write call precedes a request. *)
Theorem click_fetches_before_it_writes
    service host titleField apiKey numOfSentences records w :
  ∃ tF tW tail,
    trace (onButtonClick service host titleField records apiKey numOfSentences w).2 =
      trace w ++ [EvSetIsUpdateInProgress true] ++ tF ++ tW ++ tail ∧
    Forall fetcherEvent tF ∧ writes tF = [] ∧
    Forall writerEvent tW ∧ fetches tW = [] ∧ flagSets tW = [] ∧
    (tail = [] ∨ tail = [EvSetIsUpdateInProgress false]).
Proof.
  destruct (click_shape service host titleField apiKey numOfSentences records w)
    as (tF & tW & HF & HW & _ & Hclick).
  destruct (fetcherEvent_projections tF HF) as (HwF & _ & _).
  destruct (writerEvent_projections tW HW) as (HfW & HsW & _).
  destruct Hclick as [->|[e ->]].
  - exists tF, tW, [EvSetIsUpdateInProgress false]. split_and!; try done. by right.
  - exists tF, tW, []. rewrite app_nil_r. split_and!; try done. by left.
Qed.

(** X2. The closing [setIsUpdateInProgress(false)] is reached only when
    nothing was thrown: a click that returns leaves the block out of
    progress, having set it on and then off; a click that throws, from the
    fetcher or from the writer, leaves it in progress, having only set it
    on. *)
Theorem click_resets_progress_only_when_it_returns
    service host titleField apiKey numOfSentences records w :
  ∃ t,
    trace (onButtonClick service host titleField records apiKey numOfSentences w).2 =
      trace w ++ t ∧
    (((onButtonClick service host titleField records apiKey numOfSentences w).1 =
        Returned () ∧
      progressSets t = [true; false] ∧
      isUpdateInProgress
        (onButtonClick service host titleField records apiKey numOfSentences w).2 =
        false) ∨
     (∃ e,
        (onButtonClick service host titleField records apiKey numOfSentences w).1 =
          Thrown e ∧
        progressSets t = [true] ∧
        isUpdateInProgress
          (onButtonClick service host titleField records apiKey numOfSentences w).2 =
          true)).
Proof.
  destruct (click_shape service host titleField apiKey numOfSentences records w)
    as (tF & tW & HF & HW & _ & Hclick).
  destruct (fetcherEvent_projections tF HF) as (_ & _ & HpF).
  destruct (writerEvent_projections tW HW) as (_ & _ & HpW).
  destruct Hclick as [->|[e ->]]; eexists; (split; [reflexivity|]).
  - left. rewrite !progressSets_app, HpF, HpW. by split_and!.
  - right. exists e. rewrite !progressSets_app, HpF, HpW. by split_and!.
Qed.

(** X5. Whatever the host answers, the writer issues the slices of its
    input in order, one call at a time, as long as the host resolves them:
    either every call resolves, and it returns after [ceil (L / 50)] calls,
    or it throws at the first call the host rejects, and issues no call
    after that one. *)
Theorem writer_stops_at_the_first_rejected_call host recordUpdates w :
  ∃ m,
    (∀ k, k < m →
       host (length (writes (trace w)) + k) (batchAt recordUpdates k) = true) ∧
    ((m = ceilDiv (length recordUpdates) MAX_RECORDS_PER_UPDATE ∧
      updateRecordsInBatchesAsync host (Some recordUpdates) w =
        (Returned (),
         mkWorld (trace w ++ flat_map resolvedWrite (batchAt recordUpdates <$> seq 0 m))
           (invalidApi w) (isUpdateInProgress w))) ∨
     (m < ceilDiv (length recordUpdates) MAX_RECORDS_PER_UPDATE ∧
      host (length (writes (trace w)) + m) (batchAt recordUpdates m) = false ∧
      updateRecordsInBatchesAsync host (Some recordUpdates) w =
        (Thrown HostError,
         mkWorld (trace w ++ flat_map resolvedWrite (batchAt recordUpdates <$> seq 0 m)
                    ++ rejectedWrite (batchAt recordUpdates m))
           (invalidApi w) (isUpdateInProgress w)))).
Proof.
  pose proof (whileLoop_any host recordUpdates _ 0 w eq_refl) as (m & Hres & Hend).
  rewrite Nat.mul_0_r, Nat.sub_0_r in Hend.
  exists m. split; [exact Hres|]. exact Hend.
Qed.

(** X7. Each stage keeps to its own effects, whatever it is answered.  The
    fetcher only issues requests and sets the flag: it leaves
    [isUpdateInProgress] alone, and the flag it leaves is the one of its
    last setter call, or the one it found.  The writer only issues write
    calls: it leaves both pieces of state alone. *)
Theorem stages_keep_to_their_own_effects
    service host titleField apiKey numOfSentences records recordUpdates w :
  (∃ t,
     Forall fetcherEvent t ∧
     (getSummariesAsync service titleField records apiKey numOfSentences w).2 =
       mkWorld (trace w ++ t) (default (invalidApi w) (last (flagSets t)))
         (isUpdateInProgress w)) ∧
  (∃ t,
     Forall writerEvent t ∧
     (updateRecordsInBatchesAsync host recordUpdates w).2 =
       mkWorld (trace w ++ t) (invalidApi w) (isUpdateInProgress w)).
Proof.
  split.
  - apply forOf_world.
  - apply updateRecordsInBatchesAsync_world.
Qed.

(** X8. When every row is answered with a summary, the fetcher takes the
    rows strictly one at a time, in order: its events are, row after row,
    the request of the row and then the clearing of the flag; it returns
    one update per row, and a flag left raised by an earlier run is down
    afterwards as soon as there is one row. *)
Theorem fetcher_takes_the_rows_one_at_a_time
    service titleField apiKey numOfSentences records w :
  (∀ i, i < length records →
     ∃ v, pageSummaryAt service (length (fetches (trace w)))
            titleField apiKey numOfSentences records i = Some v ∧
          usable v ∧ carriesSentinel v = false) →
  ∃ updates,
    getSummariesAsync service titleField records apiKey numOfSentences w =
      (Returned (Some updates),
       mkWorld (trace w ++ flat_map (summarisedRow titleField apiKey numOfSentences) records)
         (if records is [] then invalidApi w else false)
         (isUpdateInProgress w)) ∧
    length updates = length records.
Proof.
  intros Hrows.
  destruct (forOf_prefix service titleField apiKey numOfSentences records
              (length records) [] w (Nat.le_refl _) Hrows) as (news & Hlen & _ & Hrun).
  exists news. split; [|done].
  unfold getSummariesAsync. rewrite Hrun, drop_all, firstn_all. by destruct records.
Qed.

Lemma fetcher_takes_the_rows_one_at_a_time_witness :
  ∃ updates,
    getSummariesAsync (answering [summaryBody "S1"; summaryBody "S2"])
      URL_FIELD_NAME [row "r1" "a.com"; row "r2" "b.com"] "key" "" (idle true) =
      (Returned (Some updates),
       mkWorld (trace (idle true) ++
                flat_map (summarisedRow URL_FIELD_NAME "key" "")
                  [row "r1" "a.com"; row "r2" "b.com"])
         (if [row "r1" "a.com"; row "r2" "b.com"] is []
          then invalidApi (idle true) else false)
         (isUpdateInProgress (idle true))) ∧
    length updates = length [row "r1" "a.com"; row "r2" "b.com"].
Proof.
  apply (fetcher_takes_the_rows_one_at_a_time
           (answering [summaryBody "S1"; summaryBody "S2"])
           URL_FIELD_NAME "key" "" [row "r1" "a.com"; row "r2" "b.com"] (idle true)).
  intros [|[|i]] Hi.
  - exists (summaryBody "S1"). split_and!; reflexivity.
  - exists (summaryBody "S2"). split_and!; reflexivity.
  - simpl in Hi. lia.
Defined.

(** X6. When row [n] is the first whose answer carries the sentinel, the
    rows before it being answered with summaries, the fetcher issues
    exactly the requests of rows 0 to [n], clears the flag after each of
    the first [n], raises it after the last, and returns nothing. *)
Theorem first_rejection_ends_the_fetch_loop
    service titleField apiKey numOfSentences records w n record pageSummary :
  records !! n = Some record →
  (∀ i, i < n →
     ∃ v, pageSummaryAt service (length (fetches (trace w)))
            titleField apiKey numOfSentences records i = Some v ∧
          usable v ∧ carriesSentinel v = false) →
  service (length (fetches (trace w)) + n) (urlOf titleField apiKey numOfSentences record)
    = Some (mkResponse (Some pageSummary)) →
  prop pageSummary "sm_api_message" = VStr "INVALID API KEY" →
  getSummariesAsync service titleField records apiKey numOfSentences w =
    (Returned None,
     mkWorld (trace w ++
              flat_map (summarisedRow titleField apiKey numOfSentences) (take n records) ++
              [EvFetch (urlOf titleField apiKey numOfSentences record);
               EvSetInvalidApi true])
       true (isUpdateInProgress w)).
Proof.
  intros Hrecord Hrows Hanswer Hmsg.
  destruct (forOf_stops service titleField apiKey numOfSentences records n record [] w
              Hrecord Hrows) as (news & _ & Hrun).
  unfold getSummariesAsync. rewrite Hrun, Hanswer.
  assert (carriesSentinel pageSummary = true) as Hs.
  { unfold carriesSentinel. by rewrite Hmsg. }
  unfold verdictOf. cbn [body].
  rewrite (carriesSentinel_usable _ Hs). fold (carriesSentinel pageSummary).
  by rewrite Hs.
Qed.

Lemma first_rejection_ends_the_fetch_loop_witness :
  threeRows !! 1 = Some (row "r2" "b.com") ∧
  rejectedSecond (length (fetches (trace (idle false))) + 1)
    (urlOf URL_FIELD_NAME "key" "" (row "r2" "b.com"))
    = Some (mkResponse (Some rejectionBody)) ∧
  getSummariesAsync rejectedSecond URL_FIELD_NAME threeRows "key" "" (idle false) =
    (Returned None,
     mkWorld (trace (idle false) ++
              flat_map (summarisedRow URL_FIELD_NAME "key" "") (take 1 threeRows) ++
              [EvFetch (urlOf URL_FIELD_NAME "key" "" (row "r2" "b.com"));
               EvSetInvalidApi true])
       true (isUpdateInProgress (idle false))).
Proof.
  split_and!; [reflexivity | reflexivity |].
  apply (first_rejection_ends_the_fetch_loop rejectedSecond URL_FIELD_NAME "key" ""
           threeRows (idle false) 1 (row "r2" "b.com") rejectionBody).
  - reflexivity.
  - intros [|i] Hi; [|lia]. exists (summaryBody "S1"). split_and!; reflexivity.
  - reflexivity.
  - reflexivity.
Defined.

(** X4. When row [n] is the first that is not answered properly (the
    service cannot be reached, the body is not JSON, or it is [null]), the
    rows before it being answered with summaries, the fetcher throws the
    corresponding exception right after the request of row [n]: the
    updates of the earlier rows are lost with it.  The click throws the
    same exception: it issues no write call and never sets progress off. *)
Theorem fault_aborts_the_click
    service host titleField apiKey numOfSentences records w n record e :
  records !! n = Some record →
  (∀ i, i < n →
     ∃ v, pageSummaryAt service (length (fetches (trace w)))
            titleField apiKey numOfSentences records i = Some v ∧
          usable v ∧ carriesSentinel v = false) →
  faultOf (service (length (fetches (trace w)) + n)
             (urlOf titleField apiKey numOfSentences record)) = Some e →
  getSummariesAsync service titleField records apiKey numOfSentences w =
    (Thrown e,
     mkWorld (trace w ++
              flat_map (summarisedRow titleField apiKey numOfSentences) (take n records) ++
              [EvFetch (urlOf titleField apiKey numOfSentences record)])
       (if n is 0 then invalidApi w else false) (isUpdateInProgress w)) ∧
  onButtonClick service host titleField records apiKey numOfSentences w =
    (Thrown e,
     mkWorld (trace w ++ [EvSetIsUpdateInProgress true] ++
              flat_map (summarisedRow titleField apiKey numOfSentences) (take n records) ++
              [EvFetch (urlOf titleField apiKey numOfSentences record)])
       (if n is 0 then invalidApi w else false) true).
Proof.
  intros Hrecord Hrows Hfault.
  pose proof (forOf_stops service titleField apiKey numOfSentences records n record []
                (setIsUpdateInProgress true w).2 Hrecord) as Hclick.
  rewrite fetches_after_progress in Hclick.
  destruct (Hclick Hrows) as (news1 & _ & Hrun1).
  destruct (forOf_stops service titleField apiKey numOfSentences records n record [] w
              Hrecord Hrows) as (news & _ & Hrun).
  rewrite (verdictOf_fault _ _ Hfault) in Hrun, Hrun1.
  rewrite onButtonClick_unfold. unfold getSummariesAsync. rewrite Hrun, Hrun1.
  split; [done|]. cbn. by rewrite <- !app_assoc.
Qed.

Lemma fault_aborts_the_click_witness :
  threeRows !! 1 = Some (row "r2" "b.com") ∧
  faultOf (unreachableAfterOne (length (fetches (trace (idle false))) + 1)
             (urlOf URL_FIELD_NAME "key" "" (row "r2" "b.com"))) = Some NetworkError ∧
  getSummariesAsync unreachableAfterOne URL_FIELD_NAME threeRows "key" "" (idle false) =
    (Thrown NetworkError,
     mkWorld (trace (idle false) ++
              flat_map (summarisedRow URL_FIELD_NAME "key" "") (take 1 threeRows) ++
              [EvFetch (urlOf URL_FIELD_NAME "key" "" (row "r2" "b.com"))])
       (if 1 is 0 then invalidApi (idle false) else false)
       (isUpdateInProgress (idle false))) ∧
  onButtonClick unreachableAfterOne resolving URL_FIELD_NAME threeRows "key" ""
      (idle false) =
    (Thrown NetworkError,
     mkWorld (trace (idle false) ++ [EvSetIsUpdateInProgress true] ++
              flat_map (summarisedRow URL_FIELD_NAME "key" "") (take 1 threeRows) ++
              [EvFetch (urlOf URL_FIELD_NAME "key" "" (row "r2" "b.com"))])
       (if 1 is 0 then invalidApi (idle false) else false) true).
Proof.
  split_and!; [reflexivity | reflexivity | |];
    apply (fault_aborts_the_click unreachableAfterOne resolving URL_FIELD_NAME "key" ""
             threeRows (idle false) 1 (row "r2" "b.com") NetworkError);
    try reflexivity.
  all: intros [|i] Hi; [|lia]; exists (summaryBody "S1"); split_and!; reflexivity.
Defined.

(** X3. When every row is answered with a summary and the host resolves
    every call, the click returns, out of progress, after the requests of
    all the rows and then the write calls; the batches written, put end to
    end, are exactly one update per row, in the order of the rows, each
    with the row's id and the summary the row was answered with; there are
    [ceil (n / 50)] calls for [n] rows. *)
Theorem click_writes_one_update_per_row
    service host titleField apiKey numOfSentences records w :
  (∀ i, i < length records →
     ∃ v, pageSummaryAt service (length (fetches (trace w)))
            titleField apiKey numOfSentences records i = Some v ∧
          usable v ∧ carriesSentinel v = false) →
  (∀ k b, host k b = true) →
  ∃ updates batches,
    onButtonClick service host titleField records apiKey numOfSentences w =
      (Returned (),
       mkWorld (trace w ++ [EvSetIsUpdateInProgress true] ++
                flat_map (summarisedRow titleField apiKey numOfSentences) records ++
                flat_map resolvedWrite batches ++
                [EvSetIsUpdateInProgress false])
         (if records is [] then invalidApi w else false) false) ∧
    concat batches = updates ∧
    length batches = ceilDiv (length records) MAX_RECORDS_PER_UPDATE ∧
    length updates = length records ∧
    ∀ i record, records !! i = Some record →
      ∃ v, pageSummaryAt service (length (fetches (trace w)))
             titleField apiKey numOfSentences records i = Some v ∧
           updates !! i =
             Some (mkUpdate (id record)
                     {[ SUMMARY_FIELD_NAME := prop v "sm_api_content" ]}).
Proof.
  intros Hrows Hhost.
  pose proof (forOf_prefix service titleField apiKey numOfSentences records
                (length records) [] (setIsUpdateInProgress true w).2 (Nat.le_refl _))
    as Hfetch.
  rewrite fetches_after_progress in Hfetch.
  destruct (Hfetch Hrows) as (news & Hlen & Hnth & Hrun).
  rewrite drop_all, firstn_all in Hrun.
  destruct (whileLoop_resolving host news Hhost _ 0
              (mkWorld (trace (setIsUpdateInProgress true w).2 ++
                        flat_map (summarisedRow titleField apiKey numOfSentences) records)
                 (if length records is 0
                  then invalidApi (setIsUpdateInProgress true w).2 else false)
                 (isUpdateInProgress (setIsUpdateInProgress true w).2)) eq_refl)
    as (batches & Hwrite & Hcount & Hcat & _).
  exists news, batches. split_and!.
  - rewrite onButtonClick_unfold. unfold getSummariesAsync. rewrite Hrun.
    cbn [forOf mret M_ret app updateRecordsInBatchesAsync]. rewrite Hwrite.
    unfold setIsUpdateInProgress. cbn. rewrite <- !app_assoc. by destruct records.
  - by rewrite Hcat, drop_0.
  - by rewrite Hcount, Nat.sub_0_r, Hlen.
  - done.
  - intros i record Hi. apply Hnth; [by eapply lookup_lt_Some | done].
Qed.

Lemma click_writes_one_update_per_row_witness :
  (∀ k b, resolving k b = true) ∧
  ∃ updates batches,
    onButtonClick (answering [summaryBody "S1"; summaryBody "S2"]) resolving
        URL_FIELD_NAME [row "r1" "a.com"; row "r2" "b.com"] "key" "" (idle true) =
      (Returned (),
       mkWorld (trace (idle true) ++ [EvSetIsUpdateInProgress true] ++
                flat_map (summarisedRow URL_FIELD_NAME "key" "")
                  [row "r1" "a.com"; row "r2" "b.com"] ++
                flat_map resolvedWrite batches ++
                [EvSetIsUpdateInProgress false])
         (if [row "r1" "a.com"; row "r2" "b.com"] is []
          then invalidApi (idle true) else false) false) ∧
    concat batches = updates ∧
    length batches =
      ceilDiv (length [row "r1" "a.com"; row "r2" "b.com"]) MAX_RECORDS_PER_UPDATE ∧
    length updates = length [row "r1" "a.com"; row "r2" "b.com"] ∧
    ∀ i record, [row "r1" "a.com"; row "r2" "b.com"] !! i = Some record →
      ∃ v, pageSummaryAt (answering [summaryBody "S1"; summaryBody "S2"])
             (length (fetches (trace (idle true))))
             URL_FIELD_NAME "key" "" [row "r1" "a.com"; row "r2" "b.com"] i = Some v ∧
           updates !! i =
             Some (mkUpdate (id record)
                     {[ SUMMARY_FIELD_NAME := prop v "sm_api_content" ]}).
Proof.
  split; [reflexivity|].
  apply (click_writes_one_update_per_row
           (answering [summaryBody "S1"; summaryBody "S2"]) resolving
           URL_FIELD_NAME "key" "" [row "r1" "a.com"; row "r2" "b.com"] (idle true)).
  - intros [|[|i]] Hi.
    + exists (summaryBody "S1"). split_and!; reflexivity.
    + exists (summaryBody "S2"). split_and!; reflexivity.
    + simpl in Hi. lia.
  - reflexivity.
Defined.

(** A click on two rows, evaluated: two requests, then one write call with
    the two updates. *)
Example click_on_two_rows :
  onButtonClick (answering [summaryBody "S1"; summaryBody "S2"]) resolving
    URL_FIELD_NAME [row "r1" "a.com"; row "r2" "b.com"] "key" "2" (idle true)
  = (Returned (),
     mkWorld
       [EvSetIsUpdateInProgress true;
        EvFetch "https://cors-anywhere.herokuapp.com/https://api.smmry.com/&SM_API_KEY=key&SM_LENGTH=2&SM_URL=a.com";
        EvSetInvalidApi false;
        EvFetch "https://cors-anywhere.herokuapp.com/https://api.smmry.com/&SM_API_KEY=key&SM_LENGTH=2&SM_URL=b.com";
        EvSetInvalidApi false;
        EvUpdateRecords [mkUpdate "r1" {[ "Summary" := VStr "S1" ]};
                         mkUpdate "r2" {[ "Summary" := VStr "S2" ]}];
        EvUpdateSettled true;
        EvSetIsUpdateInProgress false]
       false false).
Proof. vm_compute. reflexivity. Qed.

(** ** The view during and after a click *)

Lemma replay_app w t1 t2 : replay w (t1 ++ t2) = replay (replay w t1) t2.
Proof. apply foldl_app. Qed.

(** The state after some events is decided by the last call of each
    setter among them. *)
Lemma replay_world t :
  ∀ w,
  replay w t =
    mkWorld (trace w ++ t)
      (default (invalidApi w) (last (flagSets t)))
      (default (isUpdateInProgress w) (last (progressSets t))).
Proof.
  induction t as [|e t IH]; intros w.
  { cbn. rewrite app_nil_r. by destruct w. }
  change (replay w (e :: t)) with (replay (applyEvent w e) t). rewrite IH.
  cbn [applyEvent trace invalidApi isUpdateInProgress]. rewrite <- app_assoc.
  f_equal.
  - destruct e; try reflexivity.
    change (flagSets (EvSetInvalidApi b :: t)) with (b :: flagSets t).
    rewrite last_cons. by destruct (last (flagSets t)).
  - destruct e; try reflexivity.
    change (progressSets (EvSetIsUpdateInProgress b :: t)) with (b :: progressSets t).
    rewrite last_cons. by destruct (last (progressSets t)).
Qed.

(** Strictly inside a list of events that sets progress on first and off,
    if ever, last, progress is on. *)
Lemma progress_on_inside body tail p s :
  progressSets body = [] →
  tail = [] ∨ tail = [EvSetIsUpdateInProgress false] →
  [EvSetIsUpdateInProgress true] ++ body ++ tail = p ++ s →
  p ≠ [] → s ≠ [] →
  last (progressSets p) = Some true.
Proof.
  intros Hbody Htail Hsplit Hp Hs.
  destruct p as [|e p]; [done|]. injection Hsplit as <- Hrest.
  assert (progressSets p = []) as Hnone.
  2: { change (progressSets (EvSetIsUpdateInProgress true :: p))
         with (true :: progressSets p). by rewrite Hnone. }
  destruct Htail as [->| ->].
  - rewrite app_nil_r in Hrest. apply (f_equal progressSets) in Hrest.
    rewrite progressSets_app, Hbody in Hrest.
    symmetry in Hrest. by apply app_eq_nil in Hrest as [? _].
  - assert (∃ s', s = s' ++ [EvSetIsUpdateInProgress false]) as [s' ->].
    { apply last_Some. pose proof (f_equal last Hrest) as Hlast.
      rewrite !last_app in Hlast. cbn [last] in Hlast.
      destruct (last s) eqn:Hs'; [congruence|]. by apply last_None in Hs'. }
    rewrite app_assoc in Hrest. apply app_inj_tail in Hrest as [Hrest _].
    apply (f_equal progressSets) in Hrest.
    rewrite progressSets_app, Hbody in Hrest.
    symmetry in Hrest. by apply app_eq_nil in Hrest as [? _].
Qed.

(** X9. Whatever the service and the host answer, the block shows the
    loader, and so offers no button to start a second run, at every point
    of a click after its first event and before its last; it still shows
    the loader after a click that throws; after a click that returns it
    shows the form again, with the label exactly when the flag is raised,
    the button disabled exactly when the permission or the key is missing,
    and the reason exactly when the permission is missing. *)
Theorem block_shows_the_loader_throughout_a_click
    service host permissionCheck titleField apiKey numOfSentences records w :
  ∃ t,
    (onButtonClick service host titleField records apiKey numOfSentences w).2 =
      replay w t ∧
    (∀ p s, t = p ++ s → p ≠ [] → s ≠ [] →
       TLDRBlock permissionCheck apiKey numOfSentences (replay w p) = Loader) ∧
    (((onButtonClick service host titleField records apiKey numOfSentences w).1 =
        Returned () ∧
      TLDRBlock permissionCheck apiKey numOfSentences
        (onButtonClick service host titleField records apiKey numOfSentences w).2 =
        Fragment apiKey numOfSentences
          (if invalidApi
                (onButtonClick service host titleField records apiKey numOfSentences w).2
           then Some "Invalid API Key" else None)
          (negb (hasPermission permissionCheck) || String.eqb apiKey "")
          (if negb (hasPermission permissionCheck)
           then Some (reasonDisplayString permissionCheck) else None)) ∨
     (∃ e,
        (onButtonClick service host titleField records apiKey numOfSentences w).1 =
          Thrown e ∧
        TLDRBlock permissionCheck apiKey numOfSentences
          (onButtonClick service host titleField records apiKey numOfSentences w).2 =
          Loader)).
Proof.
  destruct (click_shape service host titleField apiKey numOfSentences records w)
    as (tF & tW & HF & HW & _ & Hclick).
  destruct (fetcherEvent_projections tF HF) as (_ & _ & HpF).
  destruct (writerEvent_projections tW HW) as (_ & HsW & HpW).
  assert (progressSets (tF ++ tW) = []) as Hbody.
  { by rewrite progressSets_app, HpF, HpW. }
  assert (∀ tail, flagSets ([EvSetIsUpdateInProgress true] ++ (tF ++ tW) ++ tail)
                  = flagSets tF ++ flagSets tail) as Hflags.
  { intros tail. by rewrite !flagSets_app, HsW, app_nil_r. }
  assert (∀ tail, progressSets ([EvSetIsUpdateInProgress true] ++ (tF ++ tW) ++ tail)
                  = true :: progressSets tail) as Hprogress.
  { intros tail. rewrite !progressSets_app, HpF, HpW. done. }
  assert (∀ tail p s,
            tail = [] ∨ tail = [EvSetIsUpdateInProgress false] →
            [EvSetIsUpdateInProgress true] ++ (tF ++ tW) ++ tail = p ++ s →
            p ≠ [] → s ≠ [] →
            TLDRBlock permissionCheck apiKey numOfSentences (replay w p) = Loader)
    as Hinside.
  { intros tail p s Htail Hsplit Hp Hs. rewrite replay_world. unfold TLDRBlock.
    cbn [isUpdateInProgress].
    by rewrite (progress_on_inside (tF ++ tW) tail p s Hbody Htail Hsplit Hp Hs). }
  destruct Hclick as [->|[e ->]]; cbn [fst snd].
  - exists ([EvSetIsUpdateInProgress true] ++ (tF ++ tW) ++ [EvSetIsUpdateInProgress false]).
    split_and!.
    + rewrite replay_world, Hflags, Hprogress.
      change (flagSets [EvSetIsUpdateInProgress false]) with (@nil bool).
      change (progressSets [EvSetIsUpdateInProgress false]) with [false].
      by rewrite app_nil_r, <- (app_assoc tF).
    + intros p s. apply Hinside. by right.
    + left. done.
  - exists ([EvSetIsUpdateInProgress true] ++ (tF ++ tW) ++ []).
    split_and!.
    + rewrite replay_world, Hflags, Hprogress.
      change (flagSets []) with (@nil bool).
      change (progressSets []) with (@nil bool).
      by rewrite !app_nil_r.
    + intros p s. apply Hinside. by left.
    + right. by exists e.
Qed.

(** The views after the three kinds of click, evaluated: summaries
    written, key rejected, service out of reach. *)
Example views_after_a_click :
  TLDRBlock (mkPermissionCheck true "") "key" ""
    (onButtonClick (answering [summaryBody "S1"]) resolving
       URL_FIELD_NAME [row "r1" "a.com"] "key" "" (idle true)).2
  = Fragment "key" "" None false None ∧
  TLDRBlock (mkPermissionCheck true "") "key" ""
    (onButtonClick (answering [rejectionBody]) resolving
       URL_FIELD_NAME [row "r1" "a.com"] "key" "" (idle false)).2
  = Fragment "key" "" (Some "Invalid API Key") false None ∧
  TLDRBlock (mkPermissionCheck true "") "key" ""
    (onButtonClick (answering []) resolving
       URL_FIELD_NAME [row "r1" "a.com"] "key" "" (idle false)).2
  = Loader.
Proof. split_and!; reflexivity. Qed.

(** ** The sizes of the batches *)

Lemma writes_resolved batches : writes (flat_map resolvedWrite batches) = batches.
Proof. induction batches as [|b batches IH]; [done|]. cbn. by rewrite <- IH at 2. Qed.

Lemma batchAt_length recordUpdates k :
  length (batchAt recordUpdates k) =
  MAX_RECORDS_PER_UPDATE `min` (length recordUpdates - MAX_RECORDS_PER_UPDATE * k).
Proof. unfold batchAt. rewrite slice_length. lia. Qed.

(** X10. Whatever the host answers, the writer never issues an empty write
    call nor one of more than 50 updates: the call number [k] of a run
    carries [min 50 (L - 50 k)] updates, that is 50 of them as long as 50
    are left and the remainder at the end. *)
Theorem writer_never_issues_an_empty_call host recordUpdates w :
  ∃ t,
    trace (updateRecordsInBatchesAsync host (Some recordUpdates) w).2 = trace w ++ t ∧
    (∀ k b, writes t !! k = Some b →
       b = batchAt recordUpdates k ∧
       length b =
         MAX_RECORDS_PER_UPDATE `min` (length recordUpdates - MAX_RECORDS_PER_UPDATE * k) ∧
       0 < length b ∧ length b ≤ MAX_RECORDS_PER_UPDATE).
Proof.
  pose proof (whileLoop_any host recordUpdates _ 0 w eq_refl) as (m & _ & Hend).
  rewrite Nat.mul_0_r, Nat.sub_0_r in Hend.
  pose proof (proj1 (ceilDiv_spec (length recordUpdates) _) eq_refl) as [_ Hceil].
  assert (∀ n k b, n ≤ ceilDiv (length recordUpdates) MAX_RECORDS_PER_UPDATE →
            (batchAt recordUpdates <$> seq 0 n) !! k = Some b →
            b = batchAt recordUpdates k ∧
            length b =
              MAX_RECORDS_PER_UPDATE `min`
                (length recordUpdates - MAX_RECORDS_PER_UPDATE * k) ∧
            0 < length b ∧ length b ≤ MAX_RECORDS_PER_UPDATE) as Hbatches.
  { intros n k b Hn Hb. rewrite list_lookup_fmap in Hb.
    destruct (seq 0 n !! k) as [k'|] eqn:Hk; [|done].
    apply lookup_seq in Hk as [-> Hk]. injection Hb as <-. cbn [Nat.add].
    rewrite batchAt_length. split_and!; [done | done | |];
      revert Hn Hk Hceil; unfold MAX_RECORDS_PER_UPDATE; lia. }
  cbn [updateRecordsInBatchesAsync].
  destruct Hend as [[-> ->]|(Hm & _ & ->)]; eexists; (split; [reflexivity|]).
  - intros k b. rewrite writes_resolved. by apply Hbatches.
  - intros k b. rewrite writes_app, writes_resolved.
    change (writes (rejectedWrite (batchAt recordUpdates (0 + m))))
      with (batchAt recordUpdates <$> [0 + m]).
    rewrite <- fmap_app, <- seq_S. apply Hbatches. lia.
Qed.

(** ** Requests and answers, row by row *)

Lemma strictEqStr_ne v s : v ≠ VStr s → strictEqStr v s = false.
Proof.
  destruct v; cbn; try done. intros Hne.
  destruct (String.eqb_spec s0 s); congruence.
Qed.

(** A row is requested as soon as the rows before it were answered with
    summaries, whatever its own answer and those of the later rows. *)
Lemma forOf_reaches service titleField apiKey numOfSentences records acc w i :
  i < length records →
  (∀ j, j < i →
     ∃ v, pageSummaryAt service (length (fetches (trace w)))
            titleField apiKey numOfSentences records j = Some v ∧
          usable v ∧ carriesSentinel v = false) →
  ∃ t,
    trace (forOf service titleField apiKey numOfSentences records acc w).2 =
      trace w ++ t ∧
    i < length (fetches t).
Proof.
  intros Hi Hrows.
  destruct (lookup_lt_is_Some_2 records i Hi) as [record Hrecord].
  destruct (forOf_stops service titleField apiKey numOfSentences records i record acc w
              Hrecord Hrows) as (news & _ & Hrun).
  rewrite Hrun.
  assert (length (fetches (flat_map (summarisedRow titleField apiKey numOfSentences)
                             (take i records))) = i) as Hcount.
  { rewrite fetches_summarised, length_fmap, length_take_le; lia. }
  destruct (verdictOf _) as [e| |content].
  - eexists. split; [reflexivity|]. rewrite fetches_app, length_app, Hcount. cbn. lia.
  - eexists. split; [reflexivity|]. rewrite fetches_app, length_app, Hcount. cbn. lia.
  - match goal with
    | |- context [forOf _ _ _ _ ?rest ?acc' ?w'] =>
        destruct (forOf_frame service titleField apiKey numOfSentences rest acc' w')
          as (m & t & _ & Ht & _)
    end.
    rewrite Ht. cbn [trace]. rewrite <- app_assoc.
    eexists. split; [reflexivity|].
    rewrite fetches_app, length_app, fetches_summarised, length_fmap, length_take_le; lia.
Qed.

(** C6. Every request the fetcher issues is the plain concatenation of the
    fixed endpoint (the proxy prefix and the SMMRY address), the credential,
    the sentence count and the source value of the row, each behind its
    parameter name; the sentence count is the text the user supplied when
    that is not empty and 7 otherwise; the source value is embedded as it
    is, with no encoding.  The requests go out in row order, one per row:
    for the first row whatever happens, for every row whose predecessors
    were all answered with summaries, and for all the rows when the
    fetcher returns a list. *)
Theorem request_url_is_plain_concatenation
    service titleField apiKey numOfSentences records w :
  ∃ count m t,
    (numOfSentences ≠ "" → count = numOfSentences) ∧
    (numOfSentences = "" → count = "7") ∧
    m ≤ length records ∧
    (∀ i, i < length records →
       (∀ j, j < i →
          ∃ v, pageSummaryAt service (length (fetches (trace w)))
                 titleField apiKey numOfSentences records j = Some v ∧
               usable v ∧ carriesSentinel v = false) →
       i < m) ∧
    trace (getSummariesAsync service titleField records apiKey numOfSentences w).2
      = trace w ++ t ∧
    fetches t =
      (λ record,
         CORS_PROXY +:+ API_ENDPOINT +:+
         "&SM_API_KEY=" +:+ apiKey +:+
         "&SM_LENGTH=" +:+ count +:+
         "&SM_URL=" +:+ getCellValueAsString record titleField)
      <$> take m records ∧
    ∀ updates,
      (getSummariesAsync service titleField records apiKey numOfSentences w).1
        = Returned (Some updates) →
      m = length records.
Proof.
  destruct (forOf_frame service titleField apiKey numOfSentences records [] w)
    as (m & t & Hm & Ht & Hf & _ & _ & Hret).
  exists (if String.eqb numOfSentences "" then "7" else numOfSentences), m, t.
  split_and!; try done.
  - intros Hne. destruct (String.eqb_spec numOfSentences ""); done.
  - intros ->. done.
  - intros i Hi Hrows.
    destruct (forOf_reaches service titleField apiKey numOfSentences records [] w i
                Hi Hrows) as (t' & Ht' & Hreach).
    rewrite Ht in Ht'. apply app_inv_head in Ht'. subst t'.
    rewrite Hf, length_fmap, length_take_le in Hreach; done.
  - intros updates Hupd. by destruct (Hret updates Hupd).
Qed.

(** A run that stops at its second row, evaluated: the two requests it
    issued, none for the third row. *)
Example requests_of_a_rejected_run :
  fetches (trace (getSummariesAsync rejectedSecond URL_FIELD_NAME threeRows
                    "key" "4" (idle false)).2)
  = ["https://cors-anywhere.herokuapp.com/https://api.smmry.com/&SM_API_KEY=key&SM_LENGTH=4&SM_URL=a.com";
     "https://cors-anywhere.herokuapp.com/https://api.smmry.com/&SM_API_KEY=key&SM_LENGTH=4&SM_URL=b.com"].
Proof. vm_compute. reflexivity. Qed.

(** A run that does not return a list has issued a request. *)
Lemma forOf_no_list service titleField apiKey numOfSentences records acc w t :
  trace (forOf service titleField apiKey numOfSentences records acc w).2 = trace w ++ t →
  (∀ updates,
     (forOf service titleField apiKey numOfSentences records acc w).1
       ≠ Returned (Some updates)) →
  0 < length (fetches t).
Proof.
  intros Ht Hno. destruct records as [|record rest].
  { by destruct (Hno acc). }
  destruct (forOf_reaches service titleField apiKey numOfSentences (record :: rest)
              acc w 0) as (t' & Ht' & Hreach); [cbn; lia | intros j Hj; lia |].
  rewrite Ht in Ht'. apply app_inv_head in Ht'. by subst t'.
Qed.

(** C9. An answer that can be read, does not carry the sentinel and has no
    [sm_api_content] neither fails nor skips its row.  The run goes past
    the row, clearing the flag after its request: if it ends without a
    list, that comes from a later request.  Every list the fetcher
    returns has one update per row and, at the place of that row, the
    update with the row's id and [undefined] for Summary; and the fetcher
    does return a list when the later rows are answered with summaries.
    The fetcher reads nothing of an answer but [sm_api_message] and
    [sm_api_content]: two services whose answers agree on these behave
    alike. *)
Theorem missing_content_is_written_as_undefined
    service titleField apiKey numOfSentences records w n record pageSummary :
  records !! n = Some record →
  (∀ i, i < n →
     ∃ v, pageSummaryAt service (length (fetches (trace w)))
            titleField apiKey numOfSentences records i = Some v ∧
          usable v ∧ carriesSentinel v = false) →
  service (length (fetches (trace w)) + n) (urlOf titleField apiKey numOfSentences record)
    = Some (mkResponse (Some pageSummary)) →
  usable pageSummary →
  prop pageSummary "sm_api_message" ≠ VStr "INVALID API KEY" →
  prop pageSummary "sm_api_content" = VUndefined →
  (∃ t',
     trace (getSummariesAsync service titleField records apiKey numOfSentences w).2 =
       trace w ++
       flat_map (summarisedRow titleField apiKey numOfSentences) (take (S n) records) ++
       t' ∧
     ((∀ updates,
         (getSummariesAsync service titleField records apiKey numOfSentences w).1
           ≠ Returned (Some updates)) →
      0 < length (fetches t'))) ∧
  (∀ updates,
     (getSummariesAsync service titleField records apiKey numOfSentences w).1
       = Returned (Some updates) →
     length updates = length records ∧
     updates !! n =
       Some (mkUpdate (id record) {[ SUMMARY_FIELD_NAME := VUndefined ]})) ∧
  ((∀ i, n < i → i < length records →
      ∃ v, pageSummaryAt service (length (fetches (trace w)))
             titleField apiKey numOfSentences records i = Some v ∧
           usable v ∧ carriesSentinel v = false) →
   ∃ updates,
     (getSummariesAsync service titleField records apiKey numOfSentences w).1
       = Returned (Some updates) ∧
     updates !! n =
       Some (mkUpdate (id record) {[ SUMMARY_FIELD_NAME := VUndefined ]})) ∧
  ∀ service',
    (∀ k url, sameInspected (service k url) (service' k url)) →
    ∀ records' w',
      getSummariesAsync service titleField records' apiKey numOfSentences w' =
      getSummariesAsync service' titleField records' apiKey numOfSentences w'.
Proof.
  intros Hrecord Hrows Hanswer Huse Hmsg Hcontent.
  pose proof (lookup_lt_Some _ _ _ Hrecord) as Hn.
  assert (carriesSentinel pageSummary = false) as Hno.
  { by apply strictEqStr_ne. }
  assert (verdictOf (service (length (fetches (trace w)) + n)
                       (urlOf titleField apiKey numOfSentences record))
          = Summarised VUndefined) as Hverdict.
  { unfold verdictOf. rewrite Hanswer. cbn [body]. rewrite Huse.
    fold (carriesSentinel pageSummary). by rewrite Hno, Hcontent. }
  destruct (forOf_stops service titleField apiKey numOfSentences records n record [] w
              Hrecord Hrows) as (news & Hlen & Hrun).
  rewrite Hverdict in Hrun. cbn [app] in Hrun.
  destruct (forOf_frame service titleField apiKey numOfSentences (drop (S n) records)
              (news ++ [mkUpdate (id record) {[ SUMMARY_FIELD_NAME := VUndefined ]}])
              (mkWorld (trace w ++
                        flat_map (summarisedRow titleField apiKey numOfSentences)
                          (take (S n) records))
                 false (isUpdateInProgress w)))
    as (m & t' & _ & Ht' & _ & _ & _ & Hret).
  assert (∀ updates,
     (getSummariesAsync service titleField records apiKey numOfSentences w).1
       = Returned (Some updates) →
     length updates = length records ∧
     updates !! n =
       Some (mkUpdate (id record) {[ SUMMARY_FIELD_NAME := VUndefined ]})) as Hlist.
  { unfold getSummariesAsync. rewrite Hrun. intros updates Hupd.
    destruct (Hret updates Hupd) as (_ & news' & -> & Hids & _).
    apply (f_equal length) in Hids. rewrite !length_fmap, length_drop in Hids.
    split.
    - rewrite !length_app, Hlen, <- Hids. cbn. lia.
    - rewrite <- app_assoc. by apply list_lookup_middle. }
  split_and!.
  - exists t'. unfold getSummariesAsync. rewrite Hrun. split.
    + rewrite Ht'. cbn [trace]. by rewrite <- app_assoc.
    + intros Hnone. by eapply forOf_no_list.
  - exact Hlist.
  - intros Hlater.
    destruct (forOf_summarised service titleField apiKey numOfSentences records [] w)
      as (news2 & Hrun2 & _).
    { intros i Hi. destruct (Nat.lt_total i n) as [Hlt|[->|Hgt]].
      - by apply Hrows.
      - exists pageSummary.
        by rewrite (pageSummaryAt_lookup _ _ _ _ _ _ _ _ Hrecord), Hanswer.
      - by apply Hlater. }
    exists news2. split; [exact Hrun2|]. by apply Hlist.
  - intros service' Hsame records' w'. by apply forOf_ext.
Qed.

Lemma missing_content_is_written_as_undefined_witness :
  threeRows !! 1 = Some (row "r2" "b.com") ∧
  contentMissingSecond (length (fetches (trace (idle true))) + 1)
    (urlOf URL_FIELD_NAME "key" "" (row "r2" "b.com"))
    = Some (mkResponse (Some (VObj ∅))) ∧
  (∃ t',
     trace (getSummariesAsync contentMissingSecond URL_FIELD_NAME threeRows "key" ""
              (idle true)).2 =
       trace (idle true) ++
       flat_map (summarisedRow URL_FIELD_NAME "key" "") (take 2 threeRows) ++ t' ∧
     ((∀ updates,
         (getSummariesAsync contentMissingSecond URL_FIELD_NAME threeRows "key" ""
            (idle true)).1 ≠ Returned (Some updates)) →
      0 < length (fetches t'))) ∧
  (∀ updates,
     (getSummariesAsync contentMissingSecond URL_FIELD_NAME threeRows "key" ""
        (idle true)).1 = Returned (Some updates) →
     length updates = length threeRows ∧
     updates !! 1 =
       Some (mkUpdate (id (row "r2" "b.com")) {[ SUMMARY_FIELD_NAME := VUndefined ]})) ∧
  ((∀ i, 1 < i → i < length threeRows →
      ∃ v, pageSummaryAt contentMissingSecond (length (fetches (trace (idle true))))
             URL_FIELD_NAME "key" "" threeRows i = Some v ∧
           usable v ∧ carriesSentinel v = false) →
   ∃ updates,
     (getSummariesAsync contentMissingSecond URL_FIELD_NAME threeRows "key" ""
        (idle true)).1 = Returned (Some updates) ∧
     updates !! 1 =
       Some (mkUpdate (id (row "r2" "b.com")) {[ SUMMARY_FIELD_NAME := VUndefined ]})) ∧
  ∀ service',
    (∀ k url, sameInspected (contentMissingSecond k url) (service' k url)) →
    ∀ records' w',
      getSummariesAsync contentMissingSecond URL_FIELD_NAME records' "key" "" w' =
      getSummariesAsync service' URL_FIELD_NAME records' "key" "" w'.
Proof.
  split; [reflexivity|]. split; [reflexivity|].
  apply (missing_content_is_written_as_undefined contentMissingSecond
           URL_FIELD_NAME "key" "" threeRows (idle true) 1 (row "r2" "b.com") (VObj ∅)).
  - reflexivity.
  - intros [|i] Hi; [|lia]. exists (summaryBody "S1"). split_and!; reflexivity.
  - reflexivity.
  - reflexivity.
  - discriminate.
  - reflexivity.
Defined.

(** The three rows with the second answer an empty object, evaluated:
    three updates, the second with [undefined]. *)
Example fetcher_with_a_missing_content :
  (getSummariesAsync contentMissingSecond URL_FIELD_NAME threeRows "key" ""
     (idle true)).1
  = Returned (Some [mkUpdate "r1" {[ "Summary" := VStr "S1" ]};
                    mkUpdate "r2" {[ "Summary" := VUndefined ]};
                    mkUpdate "r3" {[ "Summary" := VStr "S3" ]}]).
Proof. vm_compute. reflexivity. Qed.

(** A body that is not an object, here a number, has no [sm_api_content]
    either: its row is updated with [undefined] all the same. *)
Example fetcher_on_a_number :
  (getSummariesAsync (answering [VNum "5"]) URL_FIELD_NAME [row "r1" "a.com"]
     "key" "" (idle false)).1
  = Returned (Some [mkUpdate "r1" {[ "Summary" := VUndefined ]}]).
Proof. vm_compute. reflexivity. Qed.
